(** * Table editor with undo/redo: the command model of [pyqt6.py]

    The Python program keeps a table of string cells in
    [MyTableModel.data_array], records edits and selection changes as
    [QUndoCommand] objects and replays them through an undo stack.

    Python lists are mutable objects held by reference, so the rows of the
    table live in a store of list objects and everything that names a list
    (a table row, the [old_values] or [new_values] of a command) is a
    reference into that store.  Integers are [Z]; indexing a list follows
    Python (negative indices count from the end, anything else out of range
    raises [IndexError]). *)

From stdpp Require Import gmap strings list fin_maps sorting pretty.
From Stdlib Require Import ZArith Lia.

Open Scope string_scope.
Open Scope list_scope.
Open Scope Z_scope.

(** ** Python values, exceptions and the store of list objects *)

(** What a method of the program can return. *)
Inductive PyVal :=
  | PyNone
  | PyBool (b : bool)
  | PyStr (s : string).

(** [IndexError] is Python's; [DanglingRef] marks a reference that names no
    object of the store, which no Python program can produce. *)
Inductive PyExn :=
  | IndexError
  | DanglingRef.

Inductive Res (A : Type) :=
  | Ret (a : A)
  | Raise (e : PyExn).
Arguments Ret {A} a.
Arguments Raise {A} e.

(** References to list objects are natural numbers, the keys of the store. *)

(** [l[i]] for a list of length [n]: the position read or written. *)
Definition py_index (n : nat) (i : Z) : option nat :=
  if decide (0 ≤ i < Z.of_nat n) then Some (Z.to_nat i)
  else if decide (- Z.of_nat n ≤ i < 0) then Some (Z.to_nat (Z.of_nat n + i))
  else None.

(** ** The toolkit's item model types *)

(** [Qt.ItemDataRole], the members a table model meets. *)
Inductive ItemDataRole :=
  | DisplayRole
  | DecorationRole
  | EditRole
  | ToolTipRole
  | StatusTipRole
  | WhatsThisRole
  | UserRole.

Global Instance ItemDataRole_eq_dec : EqDecision ItemDataRole.
Proof. solve_decision. Defined.

(** A [QModelIndex] of the toolkit: its [row()] and [column()], as unbounded
    integers.  The default-constructed index is the invalid one, with row and
    column -1; an index is valid when neither is negative. *)
Record QModelIndex := mkIndex { row : Z; column : Z }.

Global Instance QModelIndex_eq_dec : EqDecision QModelIndex.
Proof. solve_decision. Defined.

Global Instance QModelIndex_countable : Countable QModelIndex.
Proof.
  refine (inj_countable' (λ i, (row i, column i)) (λ p, mkIndex p.1 p.2) _).
  by intros [].
Defined.

Definition invalid_index : QModelIndex := mkIndex (-1) (-1).

Definition isValid (i : QModelIndex) : bool :=
  bool_decide (0 ≤ row i) && bool_decide (0 ≤ column i).

(** One emission of the [dataChanged(topLeft, bottomRight, roles)] signal. *)
Record DataChanged := mkChanged {
  topLeft : QModelIndex;
  bottomRight : QModelIndex;
  roles : list ItemDataRole
}.

(** ** The session state

    [store] holds the list objects, [data_array] is the attribute of
    [MyTableModel] (the references of its rows, in order), [emitted] the
    [dataChanged] signals fired so far, oldest first, and [selection] the
    indexes the [QItemSelectionModel] of the view holds selected. *)
Record World := mkWorld {
  store : gmap nat (list string);
  data_array : list nat;
  emitted : list DataChanged;
  selection : list QModelIndex
}.

(** The rows of the table as values, when every row reference is live. *)
Definition table_contents (w : World) : option (list (list string)) :=
  mapM (λ r, store w !! r) (data_array w).

(** ** MyTableModel *)

Module MyTableModel.

Definition default_rows : list (list string) :=
  [["Item 1"; "Description 1"]; ["Item 2"; "Description 2"]].

(** Allocates fresh list objects for [rows]; returns their references. *)
Fixpoint alloc_rows (rows : list (list string)) (s : gmap nat (list string))
  : list nat * gmap nat (list string) :=
  match rows with
  | [] => ([], s)
  | r :: rest =>
      let l := fresh (dom s) in
      let '(ls, s') := alloc_rows rest (<[l := r]> s) in
      (l :: ls, s')
  end.

(** [__init__(self, data=None)]: [self.data_array = data or [[...], [...]]].
    [data] is [None] or a list of row references; [None] and the empty list
    are the falsy ones. *)
Definition init (data : option (list nat)) (s : gmap nat (list string)) : World :=
  match data with
  | Some (r :: rs) => mkWorld s (r :: rs) [] []
  | Some [] | None =>
      let '(ls, s') := alloc_rows default_rows s in
      mkWorld s' ls [] []
  end.

(** [rowCount]: [len(self.data_array)]. *)
Definition rowCount (w : World) : nat := length (data_array w).

(** [columnCount]: [len(self.data_array[0]) if self.data_array else 0]. *)
Definition columnCount (w : World) : Res nat :=
  match data_array w with
  | [] => Ret 0%nat
  | r :: _ =>
      match store w !! r with
      | Some cells => Ret (length cells)
      | None => Raise DanglingRef
      end
  end.

(** Toolkit behaviour, inherited from [QAbstractItemModel] (no source of
    it in the repository): [hasIndex(row, column)] holds when both
    coordinates are non-negative and below [rowCount()] and
    [columnCount()]. *)
Definition hasIndex (r c : Z) (w : World) : bool :=
  match columnCount w with
  | Ret n =>
      bool_decide (0 ≤ r) && bool_decide (0 ≤ c) &&
      bool_decide (r < Z.of_nat (rowCount w)) && bool_decide (c < Z.of_nat n)
  | Raise _ => false
  end.

(** Toolkit behaviour, inherited from [QAbstractTableModel]:
    [index(row, column)] is the index with these coordinates when
    [hasIndex], the invalid index otherwise.  The toolkit takes both
    arguments as C ints and raises [OverflowError] outside their range,
    which is not modelled: a statement about a row that the table does not
    bound assumes [c_int] of it. *)
Definition index (r c : Z) (w : World) : QModelIndex :=
  if hasIndex r c w then mkIndex r c else invalid_index.

(** [data(index, role)]. *)
Definition data (i : QModelIndex) (role : ItemDataRole) (w : World) : Res PyVal :=
  if decide (role = DisplayRole) then
    match py_index (length (data_array w)) (row i) with
    | None => Raise IndexError
    | Some ri =>
        match data_array w !! ri with
        | None => Raise IndexError
        | Some r =>
            match store w !! r with
            | None => Raise DanglingRef
            | Some cells =>
                match py_index (length cells) (column i) with
                | None => Raise IndexError
                | Some ci =>
                    match cells !! ci with
                    | Some v => Ret (PyStr v)
                    | None => Raise IndexError
                    end
                end
            end
        end
    end
  else Ret PyNone.

(** [setData(index, value, role)]:
    [self.data_array[index.row()][index.column()] = value], then
    [self.dataChanged.emit(index, index, [role])], then [True]; [False] for
    any role but [EditRole].  A failing subscript raises before anything is
    written. *)
Definition setData (i : QModelIndex) (value : string) (role : ItemDataRole)
    (w : World) : Res PyVal * World :=
  if decide (role = EditRole) then
    match py_index (length (data_array w)) (row i) with
    | None => (Raise IndexError, w)
    | Some ri =>
        match data_array w !! ri with
        | None => (Raise IndexError, w)
        | Some r =>
            match store w !! r with
            | None => (Raise DanglingRef, w)
            | Some cells =>
                match py_index (length cells) (column i) with
                | None => (Raise IndexError, w)
                | Some ci =>
                    (Ret (PyBool true),
                     mkWorld (<[r := <[ci := value]> cells]> (store w))
                             (data_array w)
                             (emitted w ++ [mkChanged i i [role]])
                             (selection w))
                end
            end
        end
    end
  else (Ret (PyBool false), w).

End MyTableModel.

(** ** EditRowCommand *)

Module EditRowCommand.

(** The attributes [__init__] stores: the row number and the two value
    lists, kept as the references the caller passed (no copy is taken). *)
Record t := mk { row : Z; old_values : nat; new_values : nat }.

(** The body shared by [undo] and [redo]:
    [for col, value in enumerate(values): self.model.setData(self.model.index(self.row, col), value)].
    The iterator reads the list object as it is when each element is
    asked for, and stops when the position is past its end; [cols] are the
    positions still to visit. *)
Fixpoint write_cols (values : nat) (r : Z) (cols : list nat) (w : World)
  : Res unit * World :=
  match cols with
  | [] => (Ret tt, w)
  | col :: rest =>
      match store w !! values with
      | None => (Raise DanglingRef, w)
      | Some vs =>
          match vs !! col with
          | None => (Ret tt, w)
          | Some value =>
              let i := MyTableModel.index r (Z.of_nat col) w in
              match MyTableModel.setData i value EditRole w with
              | (Ret _, w') => write_cols values r rest w'
              | (Raise e, w') => (Raise e, w')
              end
          end
      end
  end.

(** The positions [enumerate] yields: no write changes the length of a
    list, so they are those of the list at loop entry. *)
Definition write_values (values : nat) (r : Z) (w : World) : Res unit * World :=
  match store w !! values with
  | None => (Raise DanglingRef, w)
  | Some vs => write_cols values r (seq 0 (length vs)) w
  end.

Definition undo (c : t) (w : World) : Res unit * World :=
  write_values (old_values c) (row c) w.

Definition redo (c : t) (w : World) : Res unit * World :=
  write_values (new_values c) (row c) w.

End EditRowCommand.

(** ** The selection model of the view

    Toolkit behaviour (no source of it in the repository): the
    [QItemSelectionModel] of the table view, reduced to the calls the program
    makes on it.  These are the calls on a selection model that no slot is
    connected to, as the command classes take one; [MainWindow] below has the
    calls on the selection model its slot is connected to. *)

Module QItemSelectionModel.

Definition selectedIndexes (w : World) : list QModelIndex := selection w.

Definition clearSelection (w : World) : World :=
  mkWorld (store w) (data_array w) (emitted w) [].

(** The indexes of row [r] of the model. *)
Definition row_indexes (r : Z) (w : World) : list QModelIndex :=
  match MyTableModel.columnCount w with
  | Ret n => (λ c, mkIndex r (Z.of_nat c)) <$> seq 0 n
  | Raise _ => []
  end.

(** [select(index, Select | Rows)]: the whole row of [index] joins the
    selection; an index that is not one of the model selects nothing. *)
Definition select_rows (i : QModelIndex) (w : World) : World :=
  if MyTableModel.hasIndex (row i) (column i) w then
    mkWorld (store w) (data_array w) (emitted w)
            (selection w ++ list_difference (row_indexes (row i) w) (selection w))
  else w.

End QItemSelectionModel.

(** ** SelectionState *)

Module SelectionState.

Record t := mk {
  selected_rows : gset Z;
  selected_indexes : gset QModelIndex
}.

(** [capture_selection]: the rows of the valid selected indexes. *)
Definition capture_rows (sel : list QModelIndex) : gset Z :=
  foldl (λ rows i, if isValid i then rows ∪ {[row i]} else rows) ∅ sel.

Definition capture_selection (s : t) (w : World) : t :=
  mk (capture_rows (QItemSelectionModel.selectedIndexes w)) (selected_indexes s).

(** [__init__(self, selection_model=None)]; [has_model] tells whether a
    selection model was passed. *)
Definition init (has_model : bool) (w : World) : t :=
  let s := mk ∅ ∅ in
  if has_model then capture_selection s w else s.

(** [sorted(self.selected_rows)]. *)
Definition sorted (rows : gset Z) : list Z := merge_sort Z.le (elements rows).

(** The loop of [apply_selection] over the rows [rs], in list order:
    [select(model.index(row, 0), Select | Rows)] for each. *)
Definition select_each (rs : list Z) (w : World) : World :=
  foldl (λ w r, QItemSelectionModel.select_rows (MyTableModel.index r 0 w) w) w rs.

(** [apply_selection]: [clearSelection()], then the loop over
    [sorted(self.selected_rows)]. *)
Definition apply_selection (s : t) (w : World) : World :=
  select_each (sorted (selected_rows s)) (QItemSelectionModel.clearSelection w).

End SelectionState.

(** ** SelectionUndoCommand *)

Module SelectionUndoCommand.

Record t := mk { old_state : SelectionState.t; new_state : SelectionState.t }.

Definition undo (c : t) (w : World) : Res unit * World :=
  (Ret tt, SelectionState.apply_selection (old_state c) w).

Definition redo (c : t) (w : World) : Res unit * World :=
  (Ret tt, SelectionState.apply_selection (new_state c) w).

End SelectionUndoCommand.

(** ** Commands and the undo stack *)

(** The two subclasses of [QUndoCommand], with their [undo] and [redo]. *)
Inductive QUndoCommand :=
  | EditRow (c : EditRowCommand.t)
  | SelectionChange (c : SelectionUndoCommand.t).

Definition cmd_undo (c : QUndoCommand) : World → Res unit * World :=
  match c with
  | EditRow e => EditRowCommand.undo e
  | SelectionChange s => SelectionUndoCommand.undo s
  end.

Definition cmd_redo (c : QUndoCommand) : World → Res unit * World :=
  match c with
  | EditRow e => EditRowCommand.redo e
  | SelectionChange s => SelectionUndoCommand.redo s
  end.

Module History.

(** Modelled from the spec: the undo stack is the toolkit's [QUndoStack],
    whose code is not part of the sources; this is the history of the
    specification, an ordered sequence of commands and a cursor. *)
Record t := mk { commands : list QUndoCommand; cursor : nat }.

Definition empty : t := mk [] 0.

(** What an operation of the history reports. *)
Inductive Report :=
  | Applied (r : Res unit)
  | NothingToUndo
  | NothingToRedo.

(** Modelled from the spec: [push(cmd)] truncates [commands] to
    [commands[0:cursor]], appends [cmd], invokes its apply action and sets
    [cursor = len(commands)]. *)
Definition push (c : QUndoCommand) (h : t) (w : World) : Report * t * World :=
  let cs := take (cursor h) (commands h) ++ [c] in
  let '(r, w') := cmd_redo c w in
  (Applied r, mk cs (length cs), w').

(** Modelled from the spec: [undo()] is a no-op reporting [NothingToUndo]
    if [cursor == 0]; else it decrements the cursor and invokes the reverse
    action of [commands[cursor]]. *)
Definition undo (h : t) (w : World) : Report * t * World :=
  match cursor h with
  | O => (NothingToUndo, h, w)
  | S k =>
      match commands h !! k with
      | Some c => let '(r, w') := cmd_undo c w in (Applied r, mk (commands h) k, w')
      | None => (Applied (Raise IndexError), mk (commands h) k, w)
      end
  end.

(** Modelled from the spec: [redo()] is a no-op reporting [NothingToRedo]
    if [cursor == len(commands)]; else it invokes the apply action of
    [commands[cursor]] and increments the cursor. *)
Definition redo (h : t) (w : World) : Report * t * World :=
  if decide (cursor h = length (commands h)) then (NothingToRedo, h, w)
  else
    match commands h !! cursor h with
    | Some c =>
        let '(r, w') := cmd_redo c w in (Applied r, mk (commands h) (S (cursor h)), w')
    | None => (Applied (Raise IndexError), h, w)
    end.

(** Sequences of operations, for statements about runs. *)
Inductive Op :=
  | Push (c : QUndoCommand)
  | Undo
  | Redo.

Definition step (o : Op) (h : t) (w : World) : Report * t * World :=
  match o with
  | Push c => push c h w
  | Undo => undo h w
  | Redo => redo h w
  end.

Fixpoint run (ops : list Op) (h : t) (w : World) : list Report * t * World :=
  match ops with
  | [] => ([], h, w)
  | o :: rest =>
      let '(r, h', w') := step o h w in
      let '(rs, h'', w'') := run rest h' w' in
      (r :: rs, h'', w'')
  end.

End History.

(** ** MainWindow *)

Module MainWindow.

Record t := mk {
  undo_stack : History.t;
  previous_selection : SelectionState.t
}.

(** [__init__]: an empty undo stack, the default model, and the selection
    of the fresh view captured as [previous_selection]; the connection of
    the slot to [selectionChanged] is what the section [connected] below
    expresses. *)
Definition init : t * World :=
  let w := MyTableModel.init None ∅ in
  (mk History.empty (SelectionState.init true w), w).


(** Line 152 connects [selectionChanged] to [handle_selection_change], so
    every call on the selection model that changes the selection runs the
    slot before it returns.  In this section [slot] is the connected slot,
    one level of nesting deeper; a result [None] says that the call nested
    slot calls deeper than the bound allows. *)
Section connected.

Context (slot : t → World → option (t * World)).

(** [clearSelection()]: nothing happens and no signal is emitted when
    nothing is selected; otherwise the selection is emptied and the signal
    emitted. *)
Definition clearSelection_connected (m : t) (w : World) : option (t * World) :=
  match selection w with
  | [] => Some (m, QItemSelectionModel.clearSelection w)
  | _ :: _ => slot m (QItemSelectionModel.clearSelection w)
  end.

(** [select(index, Select | Rows)]: the signal is emitted when the selection
    is not what it was. *)
Definition select_connected (i : QModelIndex) (m : t) (w : World)
  : option (t * World) :=
  let w' := QItemSelectionModel.select_rows i w in
  if decide (selection w' = selection w) then Some (m, w') else slot m w'.

(** [apply_selection] on the connected selection model. *)
Definition apply_selection_connected (s : SelectionState.t) (m : t) (w : World)
  : option (t * World) :=
  foldl (λ st r, st ≫= λ '(m, w), select_connected (MyTableModel.index r 0 w) m w)
        (clearSelection_connected m w)
        (SelectionState.sorted (SelectionState.selected_rows s)).

(** Modelled from the spec: [push(cmd)] of the history for a selection
    command whose apply action runs on the connected selection model:
    truncate [commands] to [commands[0:cursor]], append [cmd], invoke its
    apply action (during which the slot may run and push), set
    [cursor = len(commands)]. *)
Definition push_connected (c : SelectionUndoCommand.t) (m : t) (w : World)
  : option (t * World) :=
  let h := undo_stack m in
  let h1 := History.mk (take (History.cursor h) (History.commands h)
                        ++ [SelectionChange c])
                       (History.cursor h) in
  match apply_selection_connected (SelectionUndoCommand.new_state c)
          (mk h1 (previous_selection m)) w with
  | Some (m2, w2) =>
      Some (mk (History.mk (History.commands (undo_stack m2))
                           (length (History.commands (undo_stack m2))))
               (previous_selection m2),
            w2)
  | None => None
  end.

End connected.

(** [handle_selection_change], the slot of [selectionChanged].  [fuel]
    bounds how deep calls of the slot may nest. *)
Fixpoint handle_selection_change (fuel : nat) (m : t) (w : World)
  : option (t * World) :=
  match fuel with
  | O => None
  | S fuel' =>
      let current_selection := SelectionState.init true w in
      if decide (SelectionState.selected_rows current_selection
                 ≠ SelectionState.selected_rows (previous_selection m))
      then
        let command :=
          SelectionUndoCommand.mk (previous_selection m) current_selection in
        match push_connected (handle_selection_change fuel') command m w with
        | Some (m', w') => Some (mk (undo_stack m') current_selection, w')
        | None => None
        end
      else Some (mk (undo_stack m) current_selection, w)
  end.

End MainWindow.

(** * Vocabulary of the statements and example sessions *)

(** A table of the data model: every row is a live list of [n] cells. *)
Definition rectangular (n : nat) (w : World) : Prop :=
  Forall (λ r, length <$> store w !! r = Some n) (data_array w).

(** The initial session of the program, used for examples. *)
Definition default_world : World := MyTableModel.init None ∅.

(** The table the constructor falls back to: two rows of two cells. *)
Definition is_default_table (w : World) : Prop :=
  table_contents w = Some MyTableModel.default_rows ∧
  MyTableModel.rowCount w = 2%nat ∧
  MyTableModel.columnCount w = Ret 2%nat ∧
  data_array w ≠ [].

(** The signal [setData] emits for the cell at row [r], column [col]. *)
Definition cell_changed (r : Z) (col : nat) : DataChanged :=
  mkChanged (mkIndex r (Z.of_nat col)) (mkIndex r (Z.of_nat col)) [EditRole].

(** The list [values] can be written over row [r]: [r] is a row of the
    table, held by the list object [rl] with cells [cur]; [values] names a
    list [vs] with as many elements as the row has cells, and that is the
    column count of the table. *)
Definition applies (values : nat) (r : Z) (w : World)
    (rl : nat) (cur vs : list string) : Prop :=
  0 ≤ r < Z.of_nat (length (data_array w)) ∧
  data_array w !! Z.to_nat r = Some rl ∧
  store w !! rl = Some cur ∧
  store w !! values = Some vs ∧
  length vs = length cur ∧
  MyTableModel.columnCount w = Ret (length cur).

(** The session after the first [k] columns of the row are written. *)
Definition after_cols (w : World) (r : Z) (rl : nat) (cur vs : list string)
    (k : nat) : World :=
  mkWorld (<[rl := take k vs ++ drop k cur]> (store w))
          (data_array w)
          (emitted w ++ (cell_changed r <$> seq 0 k))
          (selection w).

(** The session a command is tried on in the examples: the default table
    and two more list objects, [2] holding the edited row and [3] a copy of
    row 0. *)
Definition edit_world : World :=
  mkWorld (<[3%nat := ["Item 1"; "Description 1"]]>
             (<[2%nat := ["Item 1"; "Updated"]]> (store default_world)))
          (data_array default_world) [] [].

(** The edit of the scenario, holding a copy of the old row. *)
Definition edit_copy : EditRowCommand.t := EditRowCommand.mk 0 3 2.

(** The same edit built with the row object itself as [old_values]. *)
Definition edit_alias : EditRowCommand.t := EditRowCommand.mk 0 0 2.

(** The list an application of the command reads, and the method run:
    [undo()] when [undoing], [redo()] otherwise. *)
Definition edit_values (undoing : bool) (c : EditRowCommand.t) : nat :=
  if undoing then EditRowCommand.old_values c else EditRowCommand.new_values c.

Definition edit_apply (undoing : bool) (c : EditRowCommand.t)
  : World → Res unit * World :=
  if undoing then EditRowCommand.undo c else EditRowCommand.redo c.

(** The state that selects both rows of the default table. *)
Definition both_rows : SelectionState.t := SelectionState.mk {[0; 1]} ∅.

(** Nothing is left to redo: the cursor is at the end of the commands. *)
Definition at_end (h : History.t) : Prop :=
  History.cursor h = length (History.commands h).




(** The session of the scenarios: select row 0, edit its second cell,
    select row 1 instead. *)
Definition select_row_0 : QUndoCommand :=
  SelectionChange (SelectionUndoCommand.mk (SelectionState.mk ∅ ∅)
                                           (SelectionState.mk {[0%Z]} ∅)).

Definition select_row_1 : QUndoCommand :=
  SelectionChange (SelectionUndoCommand.mk (SelectionState.mk {[0%Z]} ∅)
                                           (SelectionState.mk {[1%Z]} ∅)).


(** A history with one command undone, for the examples. *)
Definition undone_once : History.t :=
  History.mk [select_row_0; select_row_1] 1.

(** * The rest of the program *)

(** ** Item flags *)

(** [Qt.ItemFlag], as the bit values the toolkit gives its members. *)
Module ItemFlag.

Definition NoItemFlags : Z := 0.
Definition ItemIsSelectable : Z := 1.
Definition ItemIsEditable : Z := 2.
Definition ItemIsDragEnabled : Z := 4.
Definition ItemIsDropEnabled : Z := 8.
Definition ItemIsUserCheckable : Z := 16.
Definition ItemIsEnabled : Z := 32.

End ItemFlag.

(** [MyTableModel.flags(index)]: [Qt.ItemIsEditable | super().flags(index)].
    [super_flags] is what the base class answers for the index. *)
Definition MyTableModel_flags (super_flags : Z) : Z :=
  Z.lor ItemFlag.ItemIsEditable super_flags.

(** ** Command texts *)

(** The text each command hands to [QUndoCommand.__init__]:
    [f"Edit Row {row}"] and ["Selection Change"]. *)
Definition command_text (c : QUndoCommand) : string :=
  match c with
  | EditRow e => "Edit Row " +:+ pretty (EditRowCommand.row e)
  | SelectionChange _ => "Selection Change"
  end.

(** ** The logger *)

Module Logging.

(** Where a [StreamHandler] writes. *)
Inductive Stream := Stdout | Stderr.

(** A handler: its stream and the format string of its formatter, if one
    was set. *)
Record Handler := mkHandler { stream : Stream; formatter : option string }.

(** A logger object: its level and its list of handlers. *)
Record Logger := mkLogger { level : Z; handlers : list Handler }.

(** [logging.DEBUG], [logging.WARNING] and [logging.NOTSET]. *)
Definition DEBUG : Z := 10.
Definition WARNING : Z := 30.
Definition NOTSET : Z := 0.

(** The logger a name stands for: the empty name and ["root"] both stand
    for the root logger. *)
Definition key (name : string) : string :=
  if decide (name = "") then "root" else name.

(** [logging.getLogger(name)] of the standard library: the logger the
    logging module keeps for [name], made with no handlers at the first
    request; the root logger starts at level [WARNING], any other at
    [NOTSET].  [loggers] is the module's table of loggers. *)
Definition getLogger (name : string) (loggers : gmap string Logger)
  : gmap string Logger :=
  match loggers !! key name with
  | Some _ => loggers
  | None =>
      <[key name := mkLogger (if decide (key name = "root") then WARNING else NOTSET) []]>
        loggers
  end.

(** A method call on the logger object that [name] stands for. *)
Definition on_logger (name : string) (f : Logger → Logger)
    (loggers : gmap string Logger) : gmap string Logger :=
  match loggers !! key name with
  | Some l => <[key name := f l]> loggers
  | None => loggers
  end.

Definition setLevel (lvl : Z) (l : Logger) : Logger := mkLogger lvl (handlers l).

(** [logger.handlers.clear()]. *)
Definition clear_handlers (l : Logger) : Logger := mkLogger (level l) [].

(** [logger.addHandler(hdlr)] with a handler object just created, which is
    therefore not yet among the handlers: it is appended. *)
Definition addHandler (h : Handler) (l : Logger) : Logger :=
  mkLogger (level l) (handlers l ++ [h]).

(** The handler [create_logger] builds: a [StreamHandler(sys.stdout)] with
    the formatter ["%(levelname)s: %(message)s"]. *)
Definition console_handler : Handler :=
  mkHandler Stdout (Some "%(levelname)s: %(message)s").

(** [create_logger(name, log_level)]: get the logger, set its level, clear
    its handlers, add the console handler. *)
Definition create_logger (name : string) (log_level : Z)
    (loggers : gmap string Logger) : gmap string Logger :=
  let loggers := getLogger name loggers in
  let loggers := on_logger name (setLevel log_level) loggers in
  let loggers := on_logger name clear_handlers loggers in
  on_logger name (addHandler console_handler) loggers.

End Logging.

(** ** Vocabulary of the further statements *)

(** The range of a C int, in which the toolkit takes rows and columns. *)
Definition c_int (z : Z) : Prop := - 2 ^ 31 ≤ z < 2 ^ 31.

(** Every selected index is an index of the model. *)
Definition selection_in_model (w : World) : Prop :=
  Forall (λ i, MyTableModel.hasIndex (row i) (column i) w = true) (selection w).

(** The cell a write through the invalid index reaches, and what the loop
    of a command leaves in it: position [m] of the list takes the value at
    each visited position of [vs] in turn. *)
Definition overwrite_at (m : nat) (vs : list string)
    (cells : list string) (col : nat) : list string :=
  match vs !! col with
  | Some v => <[m := v]> cells
  | None => cells
  end.

(** The signal a write through the invalid index emits. *)
Definition invalid_changed : DataChanged :=
  mkChanged invalid_index invalid_index [EditRole].

(** A session whose table holds the same list object as row 0 and row 1. *)
Definition shared_rows_world : World :=
  mkWorld {[ 0%nat := ["a"; "b"] ]} [0%nat; 0%nat] [] [].

(** An edit of row 5, which the default table does not have. *)
Definition edit_missing_row : EditRowCommand.t := EditRowCommand.mk 5 3 2.

(** A window whose previous selection is row 0, and a session where row 1
    is selected. *)
Definition window_row_0 : MainWindow.t :=
  MainWindow.mk History.empty (SelectionState.mk {[0%Z]} ∅).

Definition row_1_selected : World :=
  SelectionState.apply_selection (SelectionState.mk {[1%Z]} ∅) default_world.

(** The list [values] is longer than row [r]: the row, held by the list
    object [rl] with cells [cur], is shorter than the [vs] that [values]
    names, a list object of its own no longer than the [n] columns the model
    counts (those of its first row). *)
Definition short_row (values : nat) (r : Z) (w : World)
    (rl : nat) (cur vs : list string) (n : nat) : Prop :=
  0 ≤ r < Z.of_nat (length (data_array w)) ∧
  data_array w !! Z.to_nat r = Some rl ∧
  store w !! rl = Some cur ∧
  store w !! values = Some vs ∧
  values ≠ rl ∧
  MyTableModel.columnCount w = Ret n ∧
  (length cur < length vs)%nat ∧ (length vs ≤ n)%nat.

(** A session with a first row of two cells and a second row of one, and
    the list [2] to write over the second row. *)
Definition ragged_world : World :=
  mkWorld {[ 0%nat := ["a"; "b"]; 1%nat := ["c"]; 2%nat := ["x"; "y"] ]}
          [0%nat; 1%nat] [] [].

Definition edit_short_row : EditRowCommand.t := EditRowCommand.mk 1 1 2.

(** * Properties *)

(** ** Subscripts *)

Lemma py_index_in_range (n : nat) (i : Z) :
  0 ≤ i < Z.of_nat n → py_index n i = Some (Z.to_nat i).
Proof. intros Hi. unfold py_index. by rewrite decide_True. Qed.

Lemma py_index_too_large (n : nat) (i : Z) :
  Z.of_nat n ≤ i → py_index n i = None.
Proof.
  intros Hi. unfold py_index.
  rewrite decide_False by lia. by rewrite decide_False by lia.
Qed.

Lemma py_index_nat (n k : nat) :
  (k < n)%nat → py_index n (Z.of_nat k) = Some k.
Proof.
  intros Hk. rewrite py_index_in_range by lia. by rewrite Nat2Z.id.
Qed.

(** ** The table model *)

Lemma rectangular_lookup n w k r :
  rectangular n w → data_array w !! k = Some r →
  ∃ cells, store w !! r = Some cells ∧ length cells = n.
Proof.
  intros Hrect Hk.
  pose proof (Forall_lookup_1 _ _ _ _ Hrect Hk) as Hr. simpl in Hr.
  destruct (store w !! r) as [cells|]; simplify_eq/=. eauto.
Qed.

(** [setData] never changes the length of a list object, which is why the
    loop of a command visits the positions its list had at loop entry. *)
Lemma setData_keeps_lengths (i : QModelIndex) (value : string)
    (role : ItemDataRole) (w : World) (l : nat) :
  length <$> store (MyTableModel.setData i value role w).2 !! l
  = length <$> store w !! l.
Proof.
  unfold MyTableModel.setData.
  destruct (decide (role = EditRole)); [|done].
  destruct (py_index (length (data_array w)) (row i)) as [ri|]; [|done].
  destruct (data_array w !! ri) as [r|]; [|done].
  destruct (store w !! r) as [cells|] eqn:Hcells; [|done].
  destruct (py_index (length cells) (column i)) as [ci|]; [|done]. simpl.
  destruct (decide (r = l)) as [<-|Hne].
  - by rewrite lookup_insert_eq, Hcells; simpl; rewrite length_insert.
  - by rewrite lookup_insert_ne.
Qed.

(** C9: [setData] with any role but [EditRole] returns [False]; the cells,
    the row list and the emitted signals are exactly those before the call. *)
Theorem setData_other_role (i : QModelIndex) (value : string)
    (role : ItemDataRole) (w : World) :
  role ≠ EditRole →
  MyTableModel.setData i value role w = (Ret (PyBool false), w).
Proof.
  intros Hrole. unfold MyTableModel.setData. by rewrite decide_False.
Qed.

Lemma setData_other_role_witness :
  MyTableModel.setData (mkIndex 0 1) "Updated" DisplayRole default_world
  = (Ret (PyBool false), default_world).
Proof. apply (setData_other_role (mkIndex 0 1) "Updated" DisplayRole). discriminate. Defined.

(** C4, as the code has it: on a rectangular table with [n] columns,
    [setData] with a row at or beyond [rowCount()] or a column at or beyond
    [n] raises [IndexError] and changes nothing; with both in range it
    stores the value, emits one [dataChanged] for the cell and returns
    [True], not the value the cell held. *)
Theorem setData_bounds (n : nat) (w : World) (i : QModelIndex) (value : string) :
  rectangular n w →
  (Z.of_nat (MyTableModel.rowCount w) ≤ row i ∨ Z.of_nat n ≤ column i →
     MyTableModel.setData i value EditRole w = (Raise IndexError, w)) ∧
  (0 ≤ row i < Z.of_nat (MyTableModel.rowCount w) → 0 ≤ column i < Z.of_nat n →
     ∃ w', MyTableModel.setData i value EditRole w = (Ret (PyBool true), w') ∧
           MyTableModel.data i DisplayRole w' = Ret (PyStr value) ∧
           data_array w' = data_array w ∧
           emitted w' = emitted w ++ [mkChanged i i [EditRole]]).
Proof.
  intros Hrect. unfold MyTableModel.rowCount. split.
  - intros Hout. unfold MyTableModel.setData. rewrite decide_True by done.
    destruct (py_index (length (data_array w)) (row i)) as [ri|] eqn:Hri; [|done].
    destruct (data_array w !! ri) as [r|] eqn:Hr; [|done].
    destruct (rectangular_lookup _ _ _ _ Hrect Hr) as (cells & Hcells & Hlen).
    rewrite Hcells.
    destruct Hout as [Hrow|Hcol].
    + by rewrite py_index_too_large in Hri.
    + rewrite py_index_too_large; [done | lia].
  - intros Hrow Hcol. unfold MyTableModel.setData, MyTableModel.data.
    rewrite !decide_True by done. simpl.
    rewrite py_index_in_range by done.
    destruct (lookup_lt_is_Some_2 (data_array w) (Z.to_nat (row i))) as [r Hr]; [lia|].
    rewrite Hr.
    destruct (rectangular_lookup _ _ _ _ Hrect Hr) as (cells & Hcells & Hlen).
    rewrite Hcells, py_index_in_range by lia.
    eexists. split; [done|]. simpl.
    rewrite py_index_in_range, Hr by done.
    rewrite lookup_insert_eq, length_insert, py_index_in_range by lia.
    rewrite list_lookup_insert_eq by lia. done.
Qed.

Lemma default_world_rectangular : rectangular 2 default_world.
Proof. repeat constructor. Qed.

Lemma setData_bounds_witness :
  MyTableModel.setData (mkIndex 2 0) "x" EditRole default_world
  = (Raise IndexError, default_world).
Proof.
  apply (setData_bounds 2 default_world (mkIndex 2 0) "x" default_world_rectangular).
  left. vm_compute. discriminate.
Defined.

(** C4, as stated, fails: with both subscripts in range [setData] returns
    [True], which is not the value previously stored in the cell. *)
Lemma setData_returns_previous_counterexample :
  MyTableModel.data (mkIndex 0 0) DisplayRole default_world = Ret (PyStr "Item 1") ∧
  (MyTableModel.setData (mkIndex 0 0) "x" EditRole default_world).1
    ≠ Ret (PyStr "Item 1").
Proof. split; [reflexivity | vm_compute; discriminate]. Qed.

(** ** Construction of the model *)

Lemma init_default_rows (s : gmap nat (list string)) :
  is_default_table
    (let '(ls, s') := MyTableModel.alloc_rows MyTableModel.default_rows s in
     mkWorld s' ls [] []).
Proof.
  simpl.
  set (l0 := fresh (dom s)).
  set (s1 := <[l0 := ["Item 1"; "Description 1"]]> s).
  set (l1 := fresh (dom s1)).
  assert (l1 ≠ l0) as Hne.
  { intros Heq. apply (is_fresh (dom s1)). fold l1. rewrite Heq.
    unfold s1. rewrite dom_insert_L. set_solver. }
  unfold is_default_table, table_contents, MyTableModel.rowCount,
    MyTableModel.columnCount. simpl.
  rewrite lookup_insert_eq. rewrite lookup_insert_ne by done.
  unfold s1. rewrite lookup_insert_eq. done.
Qed.

(** C10, as the code has it: [None] and the empty list both give the
    default table of two rows and two columns, so passing an empty list never
    gives an empty table; [columnCount()] is 0 exactly when the stored array
    is empty or its first row is an empty list. *)
Theorem init_falsy_gives_default (s : gmap nat (list string)) :
  is_default_table (MyTableModel.init None s) ∧
  is_default_table (MyTableModel.init (Some []) s) ∧
  (∀ w, MyTableModel.columnCount w = Ret 0%nat ↔
        data_array w = [] ∨
        ∃ r rest, data_array w = r :: rest ∧ store w !! r = Some []).
Proof.
  split; [apply init_default_rows|]. split; [apply init_default_rows|].
  intros w. unfold MyTableModel.columnCount. split.
  - destruct (data_array w) as [|r rest]; [by left|].
    destruct (store w !! r) as [cells|] eqn:Hcells; [|done].
    intros [= Hlen]. right. exists r, rest.
    by apply nil_length_inv in Hlen as ->.
  - intros [-> | (r & rest & -> & ->)]; done.
Qed.

(** C10, as stated, fails in its last part: a model built from the one-row
    table [[[]]] stores a non-empty array and still has [columnCount()] 0. *)
Lemma columnCount_zero_counterexample :
  let w := MyTableModel.init (Some [7%nat]) {[ 7%nat := [] ]} in
  MyTableModel.columnCount w = Ret 0%nat ∧
  MyTableModel.rowCount w = 1%nat ∧
  table_contents w = Some [[]] ∧
  data_array w ≠ [].
Proof. repeat split; done. Qed.

(** ** Writing a row of values *)

Section write_values.

Context (w : World) (values : nat) (r : Z) (rl : nat) (cur vs : list string).
Local Abbreviation ok := (applies values r w rl cur vs).

Local Abbreviation after := (after_cols w r rl cur vs).

Lemma after_cols_0 : ok → after 0%nat = w.
Proof.
  intros Happ.
  pose proof Happ as (_ & _ & Hcur & _).
  unfold after_cols. simpl. rewrite drop_0, app_nil_r, insert_id by done.
  by destruct w.
Qed.

Lemma after_cols_row_length k :
  ok → length (take k vs ++ drop k cur) = length cur.
Proof.
  intros Happ.
  pose proof Happ as (_ & _ & _ & _ & Hlen & _).
  rewrite length_app, length_take, length_drop. lia.
Qed.

Lemma after_cols_values k :
  ok → ∃ vs', store (after k) !! values = Some vs' ∧ vs' !! k = vs !! k.
Proof.
  intros Happ.
  pose proof Happ as (_ & _ & Hcur & Hvs & Hlen & _). simpl.
  destruct (decide (rl = values)) as [Heq|Hne].
  - rewrite Heq, lookup_insert_eq. eexists; split; [done|].
    assert (vs = cur) as Hsame by congruence.
    by rewrite <- Hsame, take_drop.
  - rewrite lookup_insert_ne by done. eauto.
Qed.

Lemma after_cols_columnCount k :
  ok → MyTableModel.columnCount (after k) = Ret (length cur).
Proof.
  intros Happ.
  pose proof Happ as (_ & _ & _ & _ & _ & Hcc).
  unfold MyTableModel.columnCount in Hcc |- *. simpl.
  destruct (data_array w) as [|f rest]; [done|].
  destruct (decide (rl = f)) as [<-|Hne].
  - rewrite lookup_insert_eq. rewrite after_cols_row_length; done.
  - by rewrite lookup_insert_ne.
Qed.

Lemma after_cols_index k :
  ok → (k < length vs)%nat →
  MyTableModel.index r (Z.of_nat k) (after k) = mkIndex r (Z.of_nat k).
Proof.
  intros Happ Hk. pose proof Happ as (Hr & _ & _ & _ & Hlen & _).
  unfold MyTableModel.index, MyTableModel.hasIndex.
  rewrite after_cols_columnCount by done. unfold MyTableModel.rowCount. simpl.
  rewrite !bool_decide_eq_true_2 by lia. done.
Qed.

Lemma after_cols_step k rest :
  ok → (k < length vs)%nat →
  EditRowCommand.write_cols values r (k :: rest) (after k)
  = EditRowCommand.write_cols values r rest (after (S k)).
Proof.
  intros Happ Hk. pose proof Happ as (Hr & Hrl & Hcur & Hvs & Hlen & _).
  destruct (after_cols_values k Happ) as (vs' & Hvs' & Hk').
  destruct (lookup_lt_is_Some_2 vs k Hk) as [value Hvalue].
  cbn [EditRowCommand.write_cols]. rewrite Hvs', Hk', Hvalue.
  rewrite after_cols_index by done.
  unfold MyTableModel.setData. rewrite decide_True by done. simpl.
  rewrite py_index_in_range, Hrl, lookup_insert_eq by done.
  rewrite after_cols_row_length, py_index_nat by (done || lia).
  f_equal. unfold after_cols. f_equal.
  - rewrite insert_insert_eq. f_equal.
    rewrite insert_app_r_alt by (rewrite length_take; lia).
    rewrite length_take, Nat.min_l, Nat.sub_diag by lia.
    rewrite (take_S_r _ _ _ Hvalue), <- app_assoc. f_equal.
    destruct (lookup_lt_is_Some_2 cur k ltac:(lia)) as [old Hold].
    by rewrite (drop_S _ _ _ Hold).
  - by rewrite seq_S, fmap_app, app_assoc.
Qed.

Lemma write_cols_seq m : ∀ k,
  ok → (k + m ≤ length vs)%nat →
  EditRowCommand.write_cols values r (seq k m) (after k)
  = (Ret tt, after (k + m)%nat).
Proof.
  induction m as [|m IH]; intros k Happ Hk.
  - by rewrite Nat.add_0_r.
  - cbn [seq]. rewrite after_cols_step by (done || lia).
    rewrite IH by (done || lia). by rewrite Nat.add_succ_r.
Qed.

(** Writing the whole list replaces the cells of the target row by [vs],
    and emits one signal per cell, in column order. *)
Lemma write_values_spec :
  ok → EditRowCommand.write_values values r w = (Ret tt, after (length vs)).
Proof.
  intros Happ. pose proof Happ as (_ & _ & _ & Hvs & _).
  unfold EditRowCommand.write_values. rewrite Hvs.
  rewrite <- after_cols_0 at 1 by done. rewrite write_cols_seq; done.
Qed.

Lemma after_cols_all :
  ok → after (length vs) =
  mkWorld (<[rl := vs]> (store w)) (data_array w)
          (emitted w ++ (cell_changed r <$> seq 0 (length vs))) (selection w).
Proof.
  intros Happ. pose proof Happ as (_ & _ & _ & _ & Hlen & _).
  unfold after_cols. rewrite firstn_all, Hlen, drop_all, app_nil_r. done.
Qed.

End write_values.

(** ** Edit commands *)

Lemma table_contents_ext (w w' : World) :
  store w' = store w → data_array w' = data_array w →
  table_contents w' = table_contents w.
Proof. intros Hs Hd. unfold table_contents. by rewrite Hs, Hd. Qed.

(** After [vs] has been written over the row, a list that is not the row
    object still holds what it held and can be written back. *)
Lemma applies_after_write (w w' : World) (values other : nat) (r : Z)
    (rl : nat) (cur vs ovs : list string) :
  applies values r w rl cur vs →
  other ≠ rl → store w !! other = Some ovs → length ovs = length cur →
  store w' = <[rl := vs]> (store w) → data_array w' = data_array w →
  applies other r w' rl vs ovs.
Proof.
  intros (Hr & Hrl & Hcur & Hvs & Hlen & Hcc) Hne Hovs Hlen' Hs Hd.
  unfold applies. rewrite Hs, Hd.
  rewrite lookup_insert_eq, lookup_insert_ne by done.
  repeat split; try done; try lia.
  unfold MyTableModel.columnCount in Hcc |- *. rewrite Hs, Hd.
  destruct (data_array w) as [|f rest]; [|destruct (decide (rl = f)) as [<-|Hf]].
  - by rewrite lookup_nil in Hrl.
  - by rewrite lookup_insert_eq.
  - rewrite lookup_insert_ne by done. by rewrite Hlen.
Qed.

Lemma edit_copy_applies_new :
  applies 2%nat 0 edit_world 0%nat
    ["Item 1"; "Description 1"] ["Item 1"; "Updated"].
Proof. repeat split; done. Qed.

Lemma edit_copy_applies_old :
  applies 3%nat 0 edit_world 0%nat
    ["Item 1"; "Description 1"] ["Item 1"; "Description 1"].
Proof. repeat split; done. Qed.

Lemma edit_alias_applies_old :
  applies 0%nat 0 edit_world 0%nat
    ["Item 1"; "Description 1"] ["Item 1"; "Description 1"].
Proof. repeat split; done. Qed.

(** C1, as the code has it: when [old_values] equals the target row's
    cells, both value lists have the table's column count and [old_values]
    is a list object of its own (not the row object of the table), [redo()]
    followed by [undo()] puts every cell back. *)
Theorem redo_undo_restores (c : EditRowCommand.t) (w : World)
    (rl : nat) (cur nv : list string) :
  applies (EditRowCommand.old_values c) (EditRowCommand.row c) w rl cur cur →
  applies (EditRowCommand.new_values c) (EditRowCommand.row c) w rl cur nv →
  EditRowCommand.old_values c ≠ rl →
  ∃ w1 w2,
    EditRowCommand.redo c w = (Ret tt, w1) ∧
    EditRowCommand.undo c w1 = (Ret tt, w2) ∧
    store w2 = store w ∧
    data_array w2 = data_array w ∧
    table_contents w2 = table_contents w.
Proof.
  intros Hold Hnew Hne.
  pose proof Hold as (_ & _ & Hcur & Hovs & _).
  pose proof Hnew as (_ & _ & _ & _ & Hlen & _).
  unfold EditRowCommand.redo, EditRowCommand.undo.
  rewrite (write_values_spec _ _ _ _ _ _ Hnew), (after_cols_all _ _ _ _ _ _ Hnew).
  eexists _, _. split; [done|].
  assert (applies (EditRowCommand.old_values c) (EditRowCommand.row c)
            (mkWorld (<[rl := nv]> (store w)) (data_array w)
               (emitted w ++ (cell_changed (EditRowCommand.row c) <$> seq 0 (length nv)))
               (selection w)) rl nv cur) as Hback.
  { by eapply applies_after_write. }
  rewrite (write_values_spec _ _ _ _ _ _ Hback), (after_cols_all _ _ _ _ _ _ Hback).
  split; [done|]. simpl.
  assert (<[rl := cur]> (<[rl := nv]> (store w)) = store w) as Hs.
  { by rewrite insert_insert_eq, insert_id. }
  split; [done|]. split; [done|]. by apply table_contents_ext.
Qed.

Lemma redo_undo_restores_witness :
  ∃ w1 w2,
    EditRowCommand.redo edit_copy edit_world = (Ret tt, w1) ∧
    EditRowCommand.undo edit_copy w1 = (Ret tt, w2) ∧
    store w2 = store edit_world ∧
    data_array w2 = data_array edit_world ∧
    table_contents w2 = table_contents edit_world.
Proof.
  apply (redo_undo_restores edit_copy edit_world 0%nat
           ["Item 1"; "Description 1"] ["Item 1"; "Updated"]).
  - exact edit_copy_applies_old.
  - exact edit_copy_applies_new.
  - simpl. lia.
Defined.

(** C1, as stated, fails: [old_values] equal to the row's cells, both lists
    of the table's width, and yet [redo()] then [undo()] leaves the edited
    cells in the table, because [old_values] is the row object itself and the
    writes of [redo()] went into it. *)
Lemma redo_undo_alias_counterexample :
  applies (EditRowCommand.old_values edit_alias) (EditRowCommand.row edit_alias)
    edit_world 0%nat ["Item 1"; "Description 1"] ["Item 1"; "Description 1"] ∧
  applies (EditRowCommand.new_values edit_alias) (EditRowCommand.row edit_alias)
    edit_world 0%nat ["Item 1"; "Description 1"] ["Item 1"; "Updated"] ∧
  ∃ w1 w2,
    EditRowCommand.redo edit_alias edit_world = (Ret tt, w1) ∧
    EditRowCommand.undo edit_alias w1 = (Ret tt, w2) ∧
    table_contents edit_world
      = Some [["Item 1"; "Description 1"]; ["Item 2"; "Description 2"]] ∧
    table_contents w2
      = Some [["Item 1"; "Updated"]; ["Item 2"; "Description 2"]] ∧
    table_contents w2 ≠ table_contents edit_world.
Proof.
  split; [exact edit_alias_applies_old|]. split; [exact edit_copy_applies_new|].
  eexists _, _. repeat split; try reflexivity. discriminate.
Qed.

(** ** Change signals of an edit *)

(** C5, as the code has it: an application of an edit command ([redo()] or
    [undo()]) emits one [dataChanged] per written cell, each covering that
    cell alone, in column order; the signal of a column is emitted as soon as
    that column is written, when the columns after it still hold their
    earlier cells. *)
Theorem edit_signals_per_cell (undoing : bool) (c : EditRowCommand.t) (w : World)
    (rl : nat) (cur vs : list string) :
  applies (edit_values undoing c) (EditRowCommand.row c) w rl cur vs →
  ∃ w',
    edit_apply undoing c w = (Ret tt, w') ∧
    emitted w' = emitted w ++ (cell_changed (EditRowCommand.row c) <$> seq 0 (length vs)) ∧
    store w' !! rl = Some vs ∧
    ∀ k, (k < length vs)%nat →
      ∃ wk,
        EditRowCommand.write_cols (edit_values undoing c) (EditRowCommand.row c)
          (seq 0 (S k)) w = (Ret tt, wk) ∧
        EditRowCommand.write_cols (edit_values undoing c) (EditRowCommand.row c)
          (seq (S k) (length vs - S k)) wk = (Ret tt, w') ∧
        emitted wk = emitted w ++ (cell_changed (EditRowCommand.row c) <$> seq 0 (S k)) ∧
        store wk !! rl = Some (take (S k) vs ++ drop (S k) cur).
Proof.
  intros Happ.
  set (values := edit_values undoing c) in *.
  set (r := EditRowCommand.row c) in *.
  pose proof (after_cols_all _ _ _ _ _ _ Happ) as Hall.
  exists (after_cols w r rl cur vs (length vs)).
  split.
  { rewrite <- (write_values_spec _ _ _ _ _ _ Happ). by destruct undoing. }
  split; [by rewrite Hall|]. split; [by rewrite Hall; apply lookup_insert_eq|].
  intros k Hk. exists (after_cols w r rl cur vs (S k)).
  split.
  { rewrite <- (after_cols_0 _ _ _ _ _ _ Happ) at 1.
    by rewrite write_cols_seq by (done || lia). }
  split.
  { rewrite write_cols_seq by (done || lia).
    by replace (S k + (length vs - S k))%nat with (length vs) by lia. }
  split; [done|]. apply lookup_insert_eq.
Qed.

Lemma edit_signals_per_cell_witness :
  ∃ w',
    EditRowCommand.redo edit_copy edit_world = (Ret tt, w') ∧
    emitted w' = [cell_changed 0 0; cell_changed 0 1].
Proof.
  destruct (edit_signals_per_cell false edit_copy edit_world 0%nat
              ["Item 1"; "Description 1"] ["Item 1"; "Updated"]
              edit_copy_applies_new) as (w' & Hrun & Hsig & _).
  exists w'. split; [exact Hrun | exact Hsig].
Defined.

(** C5, as stated, fails: [redo()] of the scenario's edit emits two
    signals, the first for the cell (0, 0) alone and the second for the cell
    (0, 1) alone; the signals emitted are not a single one. *)
Lemma edit_signals_batched_counterexample :
  ∃ w',
    EditRowCommand.redo edit_copy edit_world = (Ret tt, w') ∧
    emitted w' = emitted edit_world ++
      [mkChanged (mkIndex 0 0) (mkIndex 0 0) [EditRole];
       mkChanged (mkIndex 0 1) (mkIndex 0 1) [EditRole]] ∧
    ¬ ∃ s, emitted w' = emitted edit_world ++ [s].
Proof.
  eexists. split; [reflexivity|]. split; [reflexivity|].
  intros [s Hs]. vm_compute in Hs. discriminate.
Qed.

(** ** Selection *)

Lemma columnCount_ext (w w' : World) :
  store w' = store w → data_array w' = data_array w →
  MyTableModel.columnCount w' = MyTableModel.columnCount w.
Proof. intros Hs Hd. unfold MyTableModel.columnCount. by rewrite Hs, Hd. Qed.

Lemma hasIndex_ext (w w' : World) (r c : Z) :
  store w' = store w → data_array w' = data_array w →
  MyTableModel.hasIndex r c w' = MyTableModel.hasIndex r c w.
Proof.
  intros Hs Hd. unfold MyTableModel.hasIndex, MyTableModel.rowCount.
  by rewrite (columnCount_ext w w'), Hd.
Qed.

Lemma hasIndex_true (w : World) (r c : Z) :
  MyTableModel.hasIndex r c w = true ↔
  ∃ n, MyTableModel.columnCount w = Ret n ∧
       0 ≤ r < Z.of_nat (MyTableModel.rowCount w) ∧ 0 ≤ c < Z.of_nat n.
Proof.
  unfold MyTableModel.hasIndex.
  destruct (MyTableModel.columnCount w) as [n|e].
  - rewrite !andb_true_iff, !bool_decide_eq_true. split.
    + intros [[[? ?] ?] ?]. exists n. repeat split; done.
    + intros (n' & [= <-] & [? ?] & [? ?]). done.
  - split; [done|]. by intros (n & ? & _).
Qed.

Lemma hasIndex_invalid (w : World) : MyTableModel.hasIndex (-1) (-1) w = false.
Proof.
  unfold MyTableModel.hasIndex. by destruct (MyTableModel.columnCount w).
Qed.

Lemma row_indexes_ext (w w' : World) (r : Z) :
  store w' = store w → data_array w' = data_array w →
  QItemSelectionModel.row_indexes r w' = QItemSelectionModel.row_indexes r w.
Proof.
  intros Hs Hd. unfold QItemSelectionModel.row_indexes.
  by rewrite (columnCount_ext w w').
Qed.

Lemma row_indexes_elem (w : World) (r : Z) (i : QModelIndex) :
  i ∈ QItemSelectionModel.row_indexes r w ↔
  ∃ n c, MyTableModel.columnCount w = Ret n ∧ (c < n)%nat ∧
         i = mkIndex r (Z.of_nat c).
Proof.
  unfold QItemSelectionModel.row_indexes.
  destruct (MyTableModel.columnCount w) as [n|e].
  - rewrite list_elem_of_fmap. split.
    + intros (c & -> & Hc). apply elem_of_seq in Hc. exists n, c.
      repeat split; (done || lia).
    + intros (n' & c & [= <-] & Hc & ->). exists c. split; [done|].
      apply elem_of_seq. lia.
  - split; [by intros ?%elem_of_nil|]. by intros (n & c & ? & _).
Qed.

(** The selection after [select(model.index(r, 0), Select | Rows)]. *)
Lemma select_row_elem (w : World) (r : Z) (i : QModelIndex) :
  i ∈ selection (QItemSelectionModel.select_rows (MyTableModel.index r 0 w) w) ↔
  i ∈ selection w ∨
  (MyTableModel.hasIndex r 0 w = true ∧ i ∈ QItemSelectionModel.row_indexes r w).
Proof.
  unfold MyTableModel.index, QItemSelectionModel.select_rows.
  destruct (MyTableModel.hasIndex r 0 w) eqn:Hhas; simpl.
  - rewrite Hhas. simpl. rewrite elem_of_app, list_elem_of_difference.
    destruct (decide (i ∈ selection w)); tauto.
  - rewrite hasIndex_invalid. intuition congruence.
Qed.

Lemma select_rows_frame (w : World) (i : QModelIndex) :
  store (QItemSelectionModel.select_rows i w) = store w ∧
  data_array (QItemSelectionModel.select_rows i w) = data_array w ∧
  emitted (QItemSelectionModel.select_rows i w) = emitted w.
Proof.
  unfold QItemSelectionModel.select_rows.
  by destruct (MyTableModel.hasIndex (row i) (column i) w).
Qed.

Lemma select_each_frame (rs : list Z) : ∀ w,
  store (SelectionState.select_each rs w) = store w ∧
  data_array (SelectionState.select_each rs w) = data_array w ∧
  emitted (SelectionState.select_each rs w) = emitted w.
Proof.
  induction rs as [|r rs IH]; intros w; [done|]. simpl.
  destruct (IH (QItemSelectionModel.select_rows (MyTableModel.index r 0 w) w))
    as (Hs & Hd & He).
  destruct (select_rows_frame w (MyTableModel.index r 0 w)) as (Hs' & Hd' & He').
  unfold SelectionState.select_each in *. by rewrite Hs, Hd, He.
Qed.

Lemma select_each_elem (rs : list Z) : ∀ w i,
  i ∈ selection (SelectionState.select_each rs w) ↔
  i ∈ selection w ∨
  ∃ r, r ∈ rs ∧ MyTableModel.hasIndex r 0 w = true ∧
       i ∈ QItemSelectionModel.row_indexes r w.
Proof.
  induction rs as [|r rs IH]; intros w i.
  - simpl. split; [by left|]. intros [?|(r & ?%elem_of_nil & _)]; done.
  - change (SelectionState.select_each (r :: rs) w)
      with (SelectionState.select_each rs (QItemSelectionModel.select_rows (MyTableModel.index r 0 w) w)).
    destruct (select_rows_frame w (MyTableModel.index r 0 w)) as (Hs & Hd & _).
    rewrite IH, select_row_elem. split.
    + intros [[?|[? ?]]|(r' & Hr' & Hhas & Hi)].
      * by left.
      * right. exists r. split; [left|]; done.
      * right. exists r'. split; [by right|].
        by rewrite (hasIndex_ext w) in Hhas; rewrite (row_indexes_ext w) in Hi.
    + intros [?|(r' & Hr' & Hhas & Hi)]; [by left; left|].
      apply elem_of_cons in Hr' as [-> | Hr']; [left; right; done|].
      right. exists r'. split; [done|].
      by rewrite (hasIndex_ext w), (row_indexes_ext w).
Qed.

Lemma capture_rows_acc (sel : list QModelIndex) : ∀ (acc : gset Z) (r : Z),
  r ∈ foldl (λ rows i, if isValid i then rows ∪ {[row i]} else rows) acc sel ↔
  r ∈ acc ∨ ∃ i, i ∈ sel ∧ isValid i = true ∧ row i = r.
Proof.
  induction sel as [|j sel IH]; intros acc r; simpl.
  - split; [by left|]. intros [?|(i & ?%elem_of_nil & _)]; done.
  - rewrite IH. destruct (isValid j) eqn:Hj.
    + rewrite elem_of_union, elem_of_singleton. split.
      * intros [[?| ->]|(i & ? & ? & ?)]; [by left| |].
        -- right. exists j. split; [left|]; done.
        -- right. exists i. split; [right|]; done.
      * intros [?|(i & [-> | ?]%elem_of_cons & ? & ?)]; [by left; left| |].
        -- left; right; done.
        -- right. by exists i.
    + split.
      * intros [?|(i & ? & ? & ?)]; [by left|].
        right. exists i. split; [right|]; done.
      * intros [?|(i & [-> | ?]%elem_of_cons & ? & ?)]; [by left|congruence|].
        right. by exists i.
Qed.

Lemma capture_rows_elem (sel : list QModelIndex) (r : Z) :
  r ∈ SelectionState.capture_rows sel ↔
  ∃ i, i ∈ sel ∧ isValid i = true ∧ row i = r.
Proof.
  unfold SelectionState.capture_rows. rewrite capture_rows_acc. split.
  - intros [Hr|Hr]; [by apply not_elem_of_empty in Hr | done].
  - by right.
Qed.

Lemma sorted_elem (rows : gset Z) (r : Z) :
  r ∈ SelectionState.sorted rows ↔ r ∈ rows.
Proof.
  unfold SelectionState.sorted.
  by rewrite merge_sort_Permutation, elem_of_elements.
Qed.

Lemma sorted_ascending (rows : gset Z) :
  StronglySorted Z.le (SelectionState.sorted rows).
Proof. apply StronglySorted_merge_sort; apply _. Qed.

(** The rows captured after [apply_selection]: the stored rows at which the
    model has an index in column 0. *)
Lemma apply_selection_rows (s : SelectionState.t) (w : World) (r : Z) :
  r ∈ SelectionState.capture_rows (selection (SelectionState.apply_selection s w)) ↔
  r ∈ SelectionState.selected_rows s ∧ MyTableModel.hasIndex r 0 w = true.
Proof.
  change (SelectionState.apply_selection s w)
    with (SelectionState.select_each (SelectionState.sorted (SelectionState.selected_rows s))
            (QItemSelectionModel.clearSelection w)).
  rewrite capture_rows_elem. split.
  - intros (i & Hi & Hvalid & <-).
    apply select_each_elem in Hi as [Hi|(r & Hr & Hhas & Hi)].
    { by apply elem_of_nil in Hi. }
    apply row_indexes_elem in Hi as (n & c & _ & _ & ->). simpl.
    split; [by apply sorted_elem|].
    by rewrite (hasIndex_ext w) in Hhas.
  - intros [Hr Hhas]. exists (mkIndex r 0).
    pose proof Hhas as (n & Hn & Hrow & Hcol)%hasIndex_true.
    split; [|split; [|done]].
    + apply select_each_elem. right. exists r.
      split; [by apply sorted_elem|].
      split; [by rewrite (hasIndex_ext w)|].
      apply row_indexes_elem. exists n, 0%nat.
      split; [by rewrite (columnCount_ext w)|]. split; [lia|done].
    + unfold isValid. simpl. rewrite !bool_decide_eq_true_2 by lia. done.
Qed.

(** C7, as the code has it: [apply_selection] clears the selection, then
    selects the stored rows one by one in ascending order.  When every stored
    row is a row of the model (with a column 0) the selected rows are exactly
    the stored set, whatever was selected before; a stored row the model does
    not have is not selected: it is not among the selected rows and no
    selected index lies in it. *)
Theorem apply_selection_result (s : SelectionState.t) (w : World) :
  ((∀ r, r ∈ SelectionState.selected_rows s → MyTableModel.hasIndex r 0 w = true) →
   SelectionState.apply_selection s w
     = SelectionState.select_each (SelectionState.sorted (SelectionState.selected_rows s))
         (QItemSelectionModel.clearSelection w) ∧
   selection (QItemSelectionModel.clearSelection w) = [] ∧
   StronglySorted Z.le (SelectionState.sorted (SelectionState.selected_rows s)) ∧
   (∀ r, r ∈ SelectionState.sorted (SelectionState.selected_rows s)
         ↔ r ∈ SelectionState.selected_rows s) ∧
   SelectionState.capture_rows (selection (SelectionState.apply_selection s w))
     = SelectionState.selected_rows s) ∧
  (∀ r, r ∈ SelectionState.selected_rows s → MyTableModel.hasIndex r 0 w = false →
        (r ∉ SelectionState.capture_rows
               (selection (SelectionState.apply_selection s w))) ∧
        (∀ i, i ∈ selection (SelectionState.apply_selection s w) → row i ≠ r)).
Proof.
  split.
  - intros Hrows. split; [done|]. split; [done|].
    split; [apply sorted_ascending|]. split; [apply sorted_elem|].
    apply set_eq. intros r. rewrite apply_selection_rows.
    split; [by intros [? _] | by auto].
  - intros r Hr Hmissing. split.
    + rewrite apply_selection_rows. intros [_ Hhas]. congruence.
    + intros i Hi <-. unfold SelectionState.apply_selection in Hi.
      apply select_each_elem in Hi as [Hi|(r' & _ & Hhas & Hi)].
      { by apply elem_of_nil in Hi. }
      apply row_indexes_elem in Hi as (n & c & _ & _ & ->). simpl in Hmissing.
      rewrite (hasIndex_ext w) in Hhas by done. congruence.
Qed.

Lemma both_rows_in_table (r : Z) :
  r ∈ SelectionState.selected_rows both_rows →
  MyTableModel.hasIndex r 0 default_world = true.
Proof.
  unfold both_rows. simpl. rewrite elem_of_union, !elem_of_singleton.
  by intros [-> | ->].
Qed.

Lemma apply_selection_result_witness :
  SelectionState.capture_rows
    (selection (SelectionState.apply_selection both_rows default_world))
  = {[0; 1]}.
Proof.
  apply (proj1 (apply_selection_result both_rows default_world) both_rows_in_table).
Defined.

(** C7, as stated, fails: a state that stores row 5 is applied to the
    two-row table; the model has no index for row 5, nothing is selected, and
    the selected rows are not the stored set. *)
Lemma apply_selection_missing_row_counterexample :
  let s := SelectionState.mk {[5]} ∅ in
  MyTableModel.rowCount default_world = 2%nat ∧
  MyTableModel.index 5 0 default_world = invalid_index ∧
  selection (SelectionState.apply_selection s default_world) = [] ∧
  SelectionState.capture_rows (selection (SelectionState.apply_selection s default_world))
    ≠ SelectionState.selected_rows s.
Proof.
  simpl. split; [done|]. split; [done|]. split; [done|].
  intros Heq. assert (5 ∈ (∅ : gset Z)) as Hin.
  { change (∅ : gset Z)
      with (SelectionState.capture_rows
              (selection (SelectionState.apply_selection (SelectionState.mk {[5]} ∅)
                            default_world))).
    rewrite Heq. by apply elem_of_singleton. }
  by apply not_elem_of_empty in Hin.
Qed.

(** ** The selection slot *)

Lemma sorted_empty : SelectionState.sorted ∅ = [].
Proof. unfold SelectionState.sorted. by rewrite elements_empty. Qed.

(** With nothing selected and nothing to select, the push runs the slot not
    once and is the push of the history. *)
Lemma push_connected_nothing_selected
    (slot : MainWindow.t → World → option (MainWindow.t * World))
    (c : SelectionUndoCommand.t) (m : MainWindow.t) (w : World) :
  selection w = [] →
  SelectionState.selected_rows (SelectionUndoCommand.new_state c) = ∅ →
  MainWindow.push_connected slot c m w
  = Some (MainWindow.mk (History.push (SelectionChange c) (MainWindow.undo_stack m) w).1.2
                        (MainWindow.previous_selection m),
          (History.push (SelectionChange c) (MainWindow.undo_stack m) w).2).
Proof.
  intros Hsel Hrows. unfold History.push. simpl.
  unfold MainWindow.push_connected, MainWindow.apply_selection_connected,
    MainWindow.clearSelection_connected, SelectionState.apply_selection.
  by rewrite Hsel, Hrows, sorted_empty.
Qed.


(** ** The history *)

Local Open Scope nat_scope.

(** C8: with the cursor at 0, in particular on the empty history,
    [undo()] reports [NothingToUndo]; the history, the table and the
    selection are what they were. *)
Theorem undo_nothing (h : History.t) (w : World) :
  History.cursor h = 0 →
  History.undo h w = (History.NothingToUndo, h, w).
Proof. intros Hc. unfold History.undo. by rewrite Hc. Qed.

Lemma undo_nothing_witness :
  History.undo (MainWindow.undo_stack MainWindow.init.1) MainWindow.init.2
  = (History.NothingToUndo, History.empty, default_world).
Proof.
  apply (undo_nothing (MainWindow.undo_stack MainWindow.init.1) MainWindow.init.2).
  reflexivity.
Defined.

Lemma push_result (c : QUndoCommand) (h : History.t) (w : World) :
  History.push c h w
  = (History.Applied (cmd_redo c w).1,
     History.mk (take (History.cursor h) (History.commands h) ++ [c])
                (length (take (History.cursor h) (History.commands h) ++ [c])),
     (cmd_redo c w).2).
Proof. unfold History.push. by destruct (cmd_redo c w). Qed.

Lemma redo_at_end (h : History.t) (w : World) :
  at_end h → History.redo h w = (History.NothingToRedo, h, w).
Proof. intros He. unfold History.redo. by rewrite decide_True. Qed.

Lemma run_keeps_at_end (ops : list History.Op) : ∀ h w,
  Forall (λ o, o ≠ History.Undo) ops → at_end h →
  at_end (History.run ops h w).1.2.
Proof.
  induction ops as [|o ops IH]; intros h w Hops He; [done|].
  apply Forall_cons in Hops as [Ho Hops]. simpl.
  destruct (History.step o h w) as [[rep h'] w'] eqn:Hstep.
  specialize (IH h' w' Hops).
  destruct (History.run ops h' w') as [[reps h''] w'']. simpl in *.
  apply IH. destruct o as [c| |]; simpl in Hstep.
  - rewrite push_result in Hstep. by simplify_eq.
  - done.
  - rewrite redo_at_end in Hstep by done. by simplify_eq.
Qed.

(** C3: a push with the cursor before the end keeps the commands before
    the cursor, drops those from the cursor on, appends the command, applies
    it and leaves the cursor at the new length; [redo()] then reports
    [NothingToRedo] and changes nothing, and goes on doing so after any
    further pushes and redos, as long as no [undo()] comes in between. *)
Theorem push_discards_redo_tail (c : QUndoCommand) (h : History.t) (w : World) :
  History.cursor h < length (History.commands h) →
  let h' := History.mk (take (History.cursor h) (History.commands h) ++ [c])
                       (S (History.cursor h)) in
  let w' := (cmd_redo c w).2 in
  History.push c h w = (History.Applied (cmd_redo c w).1, h', w') ∧
  length (History.commands h') = History.cursor h' ∧
  (∀ k, k < History.cursor h → History.commands h' !! k = History.commands h !! k) ∧
  History.commands h' !! History.cursor h = Some c ∧
  History.redo h' w' = (History.NothingToRedo, h', w') ∧
  (∀ ops, Forall (λ o, o ≠ History.Undo) ops →
     ∃ reps h'' w'',
       History.run ops h' w' = (reps, h'', w'') ∧
       History.redo h'' w'' = (History.NothingToRedo, h'', w'')).
Proof.
  intros Hc h' w'.
  assert (length (take (History.cursor h) (History.commands h)) = History.cursor h)
    as Hlen by (rewrite length_take; lia).
  assert (at_end h') as He.
  { unfold at_end, h'. simpl. rewrite length_app, Hlen. simpl. lia. }
  split.
  { rewrite push_result. unfold h', w'. by rewrite length_app, Hlen, Nat.add_1_r. }
  split; [done|].
  split.
  { intros k Hk. simpl. rewrite lookup_app_l by lia. by rewrite lookup_take_lt. }
  split.
  { simpl. rewrite lookup_app_r by lia. by rewrite Hlen, Nat.sub_diag. }
  split; [by apply redo_at_end|].
  intros ops Hops.
  pose proof (run_keeps_at_end ops h' w' Hops He) as He'.
  destruct (History.run ops h' w') as [[reps h''] w''].
  exists reps, h'', w''. split; [done|]. by apply redo_at_end.
Qed.

(** ** Pushes followed by as many undos *)

Lemma apply_selection_frame (s : SelectionState.t) (w : World) :
  store (SelectionState.apply_selection s w) = store w ∧
  data_array (SelectionState.apply_selection s w) = data_array w.
Proof.
  destruct (select_each_frame (SelectionState.sorted (SelectionState.selected_rows s))
              (QItemSelectionModel.clearSelection w)) as (Hs & Hd & _).
  done.
Qed.








Lemma push_discards_redo_tail_witness :
  let h' := History.mk [select_row_0; EditRow edit_copy] 2 in
  let w' := (cmd_redo (EditRow edit_copy) edit_world).2 in
  History.push (EditRow edit_copy) undone_once edit_world
    = (History.Applied (Ret tt), h', w') ∧
  History.redo h' w' = (History.NothingToRedo, h', w').
Proof.
  assert (History.cursor undone_once < length (History.commands undone_once))
    as Hc by (simpl; lia).
  destruct (push_discards_redo_tail (EditRow edit_copy) undone_once edit_world Hc)
    as (Hpush & _ & _ & _ & Hredo & _).
  split; [exact Hpush | exact Hredo].
Defined.


(** The edit scenario through the history: the push writes "Updated" into
    row 0, [undo()] puts "Description 1" back and [redo()] writes "Updated"
    again. *)
Example scenario_edit_undo_redo :
  let '(_, h1, w1) := History.push (EditRow edit_copy) History.empty edit_world in
  let '(_, h2, w2) := History.undo h1 w1 in
  let '(_, h3, w3) := History.redo h2 w2 in
  table_contents w1 = Some [["Item 1"; "Updated"]; ["Item 2"; "Description 2"]]%string ∧
  table_contents w2 = Some [["Item 1"; "Description 1"]; ["Item 2"; "Description 2"]]%string ∧
  table_contents w3 = Some [["Item 1"; "Updated"]; ["Item 2"; "Description 2"]]%string ∧
  History.cursor h1 = 1 ∧ History.cursor h2 = 0 ∧ History.cursor h3 = 1.
Proof. vm_compute. repeat split. Qed.

(** * Further properties *)

Local Open Scope Z_scope.

(** ** Capturing and applying a selection *)

(** X1: [capture_selection] stores exactly the rows that hold a valid
    selected index: none of them is negative, the rows the state held before
    are forgotten, and neither the order nor the repetition of the selected
    indexes matters. *)
Theorem capture_selection_rows (s : SelectionState.t) (w : World) :
  (∀ r, r ∈ SelectionState.selected_rows (SelectionState.capture_selection s w) ↔
        ∃ i, i ∈ selection w ∧ isValid i = true ∧ row i = r) ∧
  (∀ r, r ∈ SelectionState.selected_rows (SelectionState.capture_selection s w) →
        0 ≤ r) ∧
  (∀ s', SelectionState.selected_rows (SelectionState.capture_selection s' w)
         = SelectionState.selected_rows (SelectionState.capture_selection s w)) ∧
  (∀ w', (∀ i, i ∈ selection w' ↔ i ∈ selection w) →
         SelectionState.selected_rows (SelectionState.capture_selection s w')
         = SelectionState.selected_rows (SelectionState.capture_selection s w)).
Proof.
  simpl. unfold QItemSelectionModel.selectedIndexes.
  split; [intros r; apply capture_rows_elem|].
  split.
  { intros r (i & _ & Hvalid & <-)%capture_rows_elem.
    unfold isValid in Hvalid. apply andb_true_iff in Hvalid as [Hrow _].
    by apply bool_decide_eq_true in Hrow. }
  split; [done|].
  intros w' Hsame. apply set_eq. intros r. rewrite !capture_rows_elem.
  split; intros (i & Hi & Hrest); exists i; (split; [by apply Hsame|done]).
Qed.

Lemma clearSelection_after_apply (s : SelectionState.t) (w : World) :
  QItemSelectionModel.clearSelection (SelectionState.apply_selection s w)
  = QItemSelectionModel.clearSelection w.
Proof.
  destruct (select_each_frame (SelectionState.sorted (SelectionState.selected_rows s))
              (QItemSelectionModel.clearSelection w)) as (Hs & Hd & He).
  unfold QItemSelectionModel.clearSelection, SelectionState.apply_selection.
  by rewrite Hs, Hd, He.
Qed.

(** X2: of two selection states applied one after the other only the second
    counts: the session is the one the second gives on its own.  Applying a
    state twice is applying it once, and a [redo()] of a selection command
    after its [undo()] gives what the [redo()] alone gives. *)
Theorem apply_selection_last_wins (s1 s2 : SelectionState.t) (w : World) :
  SelectionState.apply_selection s2 (SelectionState.apply_selection s1 w)
  = SelectionState.apply_selection s2 w.
Proof.
  unfold SelectionState.apply_selection at 1.
  by rewrite clearSelection_after_apply.
Qed.

Lemma row_indexes_NoDup (r : Z) (w : World) :
  NoDup (QItemSelectionModel.row_indexes r w).
Proof.
  unfold QItemSelectionModel.row_indexes.
  destruct (MyTableModel.columnCount w) as [n|e]; [|constructor].
  apply NoDup_fmap_2; [|apply NoDup_seq].
  intros c c' [= Hc]. lia.
Qed.

Lemma select_each_NoDup (rs : list Z) : ∀ w,
  NoDup (selection w) → NoDup (selection (SelectionState.select_each rs w)).
Proof.
  induction rs as [|r rs IH]; intros w Hw; [done|].
  change (SelectionState.select_each (r :: rs) w)
    with (SelectionState.select_each rs
            (QItemSelectionModel.select_rows (MyTableModel.index r 0 w) w)).
  apply IH. unfold QItemSelectionModel.select_rows.
  destruct (MyTableModel.hasIndex _ _ w); [|done]. simpl.
  apply NoDup_app. split; [done|]. split.
  - intros i Hi Hdiff. by apply list_elem_of_difference in Hdiff as [_ ?].
  - apply NoDup_list_difference, row_indexes_NoDup.
Qed.

(** X3: [apply_selection] leaves the cells, the rows and the emitted signals
    alone; afterwards every selected index is an index of the model, in a row
    the state stores, and no index is selected twice. *)
Theorem apply_selection_invariants (s : SelectionState.t) (w : World) :
  let w' := SelectionState.apply_selection s w in
  store w' = store w ∧ data_array w' = data_array w ∧ emitted w' = emitted w ∧
  selection_in_model w' ∧
  (∀ i, i ∈ selection w' → row i ∈ SelectionState.selected_rows s) ∧
  NoDup (selection w').
Proof.
  intros w'.
  destruct (select_each_frame (SelectionState.sorted (SelectionState.selected_rows s))
              (QItemSelectionModel.clearSelection w)) as (Hs & Hd & He).
  split; [done|]. split; [done|]. split; [done|].
  assert (∀ i, i ∈ selection w' →
            row i ∈ SelectionState.selected_rows s ∧
            MyTableModel.hasIndex (row i) (column i) w = true) as Hsel.
  { intros i Hi. unfold w', SelectionState.apply_selection in Hi.
    apply select_each_elem in Hi as [Hi|(r & Hr & Hhas & Hi)].
    { by apply elem_of_nil in Hi. }
    apply row_indexes_elem in Hi as (n & c & Hn & Hc & ->). simpl.
    split; [by apply sorted_elem|].
    rewrite (hasIndex_ext w) in Hhas by done.
    rewrite (columnCount_ext w) in Hn by done.
    apply hasIndex_true in Hhas as (n' & Hn' & Hrow & _).
    apply hasIndex_true. exists n. split; [done|]. split; [done|]. lia. }
  split.
  { apply Forall_forall. intros i Hi.
    rewrite (hasIndex_ext w) by done. by apply Hsel. }
  split; [intros i Hi; by apply Hsel|].
  apply select_each_NoDup. constructor.
Qed.

(** ** Edit commands: repetition, shape, and rows the table lacks *)

(** Once [vs] has been written over the row it can be written again. *)
Lemma applies_again (w : World) (values : nat) (r : Z) (rl : nat)
    (cur vs : list string) :
  applies values r w rl cur vs →
  applies values r (after_cols w r rl cur vs (length vs)) rl vs vs.
Proof.
  intros Happ. pose proof Happ as (Hr & Hrl & Hcur & Hvs & Hlen & Hcc).
  pose proof (after_cols_columnCount _ _ _ _ _ _ (length vs) Happ) as Hcc'.
  rewrite (after_cols_all _ _ _ _ _ _ Happ) in Hcc' |- *.
  unfold applies. simpl. rewrite lookup_insert_eq, Hlen.
  repeat split; try done; try lia.
  destruct (decide (rl = values)) as [->|Hne].
  - by rewrite lookup_insert_eq.
  - by rewrite lookup_insert_ne.
Qed.

(** X4: an application of an edit command ([redo()] or [undo()]) that is
    repeated right away leaves the cells as the first application left them,
    and emits its signals a second time. *)
Theorem edit_apply_twice (undoing : bool) (c : EditRowCommand.t) (w : World)
    (rl : nat) (cur vs : list string) :
  applies (edit_values undoing c) (EditRowCommand.row c) w rl cur vs →
  ∃ w1 w2,
    edit_apply undoing c w = (Ret tt, w1) ∧
    edit_apply undoing c w1 = (Ret tt, w2) ∧
    store w2 = store w1 ∧
    table_contents w2 = table_contents w1 ∧
    emitted w2
    = emitted w1 ++ (cell_changed (EditRowCommand.row c) <$> seq 0 (length vs)).
Proof.
  intros Happ. pose proof (applies_again _ _ _ _ _ _ Happ) as Hagain.
  assert (∀ w0, edit_apply undoing c w0
                = EditRowCommand.write_values (edit_values undoing c)
                    (EditRowCommand.row c) w0) as Hrun by (by destruct undoing).
  rewrite !Hrun, (write_values_spec _ _ _ _ _ _ Happ).
  eexists _, _. split; [done|].
  rewrite Hrun, (write_values_spec _ _ _ _ _ _ Hagain).
  split; [done|].
  rewrite (after_cols_all _ _ _ _ _ _ Hagain), (after_cols_all _ _ _ _ _ _ Happ).
  simpl. rewrite insert_insert_eq.
  split; [done|]. split; [|done].
  by apply table_contents_ext.
Qed.

Lemma edit_apply_twice_witness :
  ∃ w1 w2,
    EditRowCommand.redo edit_copy edit_world = (Ret tt, w1) ∧
    EditRowCommand.redo edit_copy w1 = (Ret tt, w2) ∧
    table_contents w2 = table_contents w1 ∧
    length (emitted w2) = 4%nat.
Proof.
  destruct (edit_apply_twice false edit_copy edit_world 0%nat
              ["Item 1"; "Description 1"]%string ["Item 1"; "Updated"]%string
              edit_copy_applies_new) as (w1 & w2 & H1 & H2 & _ & Ht & He).
  exists w1, w2. split; [exact H1|]. split; [exact H2|]. split; [exact Ht|].
  rewrite He. injection H1 as <-. reflexivity.
Defined.

(** X6: on a table without rows an edit command with at least one value,
    for a row in the range of a C int, raises [IndexError] at its first write
    and leaves the session as it was. *)
Theorem edit_apply_empty_table (undoing : bool) (c : EditRowCommand.t) (w : World)
    (v : string) (vs : list string) :
  c_int (EditRowCommand.row c) →
  data_array w = [] →
  store w !! edit_values undoing c = Some (v :: vs) →
  edit_apply undoing c w = (Raise IndexError, w).
Proof.
  intros _ Hd Hvs.
  assert (edit_apply undoing c w
          = EditRowCommand.write_values (edit_values undoing c)
              (EditRowCommand.row c) w) as -> by (by destruct undoing).
  unfold EditRowCommand.write_values. rewrite Hvs.
  cbn [length seq EditRowCommand.write_cols]. rewrite Hvs. simpl.
  assert (MyTableModel.index (EditRowCommand.row c) (Z.of_nat 0) w = invalid_index)
    as ->.
  { unfold MyTableModel.index, MyTableModel.hasIndex, MyTableModel.columnCount.
    rewrite Hd. simpl. by rewrite andb_false_r. }
  unfold MyTableModel.setData. rewrite Hd. done.
Qed.

Lemma edit_apply_empty_table_witness :
  EditRowCommand.redo (EditRowCommand.mk 0 1 1)
    (mkWorld {[ 1%nat := ["x"]%string ]} [] [] [])
  = (Raise IndexError, mkWorld {[ 1%nat := ["x"]%string ]} [] [] []).
Proof.
  apply (edit_apply_empty_table false (EditRowCommand.mk 0 1 1)
           (mkWorld {[ 1%nat := ["x"]%string ]} [] [] []) "x"%string []);
    [split; [vm_compute; discriminate | reflexivity] | reflexivity | reflexivity].
Defined.

Lemma setData_frame (i : QModelIndex) (value : string) (role : ItemDataRole)
    (w : World) :
  data_array (MyTableModel.setData i value role w).2 = data_array w ∧
  selection (MyTableModel.setData i value role w).2 = selection w.
Proof.
  unfold MyTableModel.setData.
  destruct (decide (role = EditRole)); [|done].
  destruct (py_index (length (data_array w)) (row i)) as [ri|]; [|done].
  destruct (data_array w !! ri) as [r|]; [|done].
  destruct (store w !! r) as [cells|]; [|done].
  by destruct (py_index (length cells) (column i)).
Qed.

Lemma write_cols_shape (values : nat) (r : Z) (cols : list nat) : ∀ w,
  data_array (EditRowCommand.write_cols values r cols w).2 = data_array w ∧
  selection (EditRowCommand.write_cols values r cols w).2 = selection w ∧
  ∀ l, length <$> store (EditRowCommand.write_cols values r cols w).2 !! l
       = length <$> store w !! l.
Proof.
  induction cols as [|col cols IH]; intros w; [done|].
  cbn [EditRowCommand.write_cols].
  destruct (store w !! values) as [vs|]; [|done].
  destruct (vs !! col) as [value|]; [|done].
  pose proof (setData_frame (MyTableModel.index r (Z.of_nat col) w) value EditRole w)
    as [Hd Hsel].
  pose proof (setData_keeps_lengths (MyTableModel.index r (Z.of_nat col) w)
                value EditRole w) as Hlen.
  destruct (MyTableModel.setData _ value EditRole w) as [[b|e] w1]; simpl in *.
  - destruct (IH w1) as (Hd' & Hsel' & Hlen').
    split; [congruence|]. split; [congruence|].
    intros l. by rewrite Hlen', Hlen.
  - done.
Qed.

(** X7: no [undo()] or [redo()] of a command, whether it ends normally or
    raises, adds or removes a row or changes the length of any list: the row
    count and the column count of the model stay what they were. *)
Theorem commands_keep_shape (c : QUndoCommand) (undoing : bool) (w : World) :
  let w' := ((if undoing then cmd_undo c else cmd_redo c) w).2 in
  data_array w' = data_array w ∧
  (∀ l, length <$> store w' !! l = length <$> store w !! l) ∧
  MyTableModel.rowCount w' = MyTableModel.rowCount w ∧
  MyTableModel.columnCount w' = MyTableModel.columnCount w.
Proof.
  intros w'.
  assert (data_array w' = data_array w ∧
          ∀ l, length <$> store w' !! l = length <$> store w !! l) as [Hd Hlen].
  { unfold w'. destruct c as [e|s], undoing; simpl.
    - unfold EditRowCommand.undo, EditRowCommand.write_values.
      destruct (store w !! EditRowCommand.old_values e); [|done].
      by destruct (write_cols_shape (EditRowCommand.old_values e)
                     (EditRowCommand.row e) (seq 0 (length l)) w) as (? & _ & ?).
    - unfold EditRowCommand.redo, EditRowCommand.write_values.
      destruct (store w !! EditRowCommand.new_values e); [|done].
      by destruct (write_cols_shape (EditRowCommand.new_values e)
                     (EditRowCommand.row e) (seq 0 (length l)) w) as (? & _ & ?).
    - destruct (apply_selection_frame (SelectionUndoCommand.old_state s) w)
        as [Hs ?]. split; [done|]. intros l. by rewrite Hs.
    - destruct (apply_selection_frame (SelectionUndoCommand.new_state s) w)
        as [Hs ?]. split; [done|]. intros l. by rewrite Hs. }
  split; [done|]. split; [done|].
  unfold MyTableModel.rowCount, MyTableModel.columnCount. rewrite Hd.
  split; [done|].
  destruct (data_array w) as [|f rest]; [done|].
  specialize (Hlen f).
  destruct (store w' !! f), (store w !! f); simplify_eq/=; congruence.
Qed.

Lemma index_missing_row (r c : Z) (w : World) :
  r < 0 ∨ Z.of_nat (MyTableModel.rowCount w) ≤ r →
  MyTableModel.index r c w = invalid_index.
Proof.
  intros Hr. unfold MyTableModel.index, MyTableModel.hasIndex.
  destruct (MyTableModel.columnCount w) as [n|e]; [|done].
  destruct Hr as [Hr|Hr].
  - by rewrite (bool_decide_eq_false_2 (0 ≤ r)) by lia.
  - rewrite (bool_decide_eq_false_2 (r < _)) by lia.
    by rewrite andb_false_r.
Qed.

(** A write through the invalid index: row -1, column -1, the last cell of
    the last row. *)
Lemma setData_invalid_index (w : World) (ll : nat) (lc : list string) (v : string) :
  last (data_array w) = Some ll → store w !! ll = Some lc → lc ≠ [] →
  MyTableModel.setData invalid_index v EditRole w
  = (Ret (PyBool true),
     mkWorld (<[ll := <[pred (length lc) := v]> lc]> (store w)) (data_array w)
             (emitted w ++ [invalid_changed]) (selection w)).
Proof.
  intros Hlast Hll Hne.
  assert (∀ n, (0 < n)%nat → py_index n (-1) = Some (pred n)) as Hidx.
  { intros n Hn. unfold py_index.
    rewrite decide_False, decide_True by lia. f_equal. lia. }
  assert (0 < length (data_array w))%nat as Hda.
  { destruct (data_array w); [done | simpl; lia]. }
  assert (0 < length lc)%nat as Hlc.
  { destruct lc; [done | simpl; lia]. }
  unfold MyTableModel.setData. rewrite decide_True by done. simpl.
  rewrite Hidx by done. rewrite <- last_lookup, Hlast, Hll.
  by rewrite Hidx by done.
Qed.

Lemma write_cols_missing_row (values : nat) (r : Z) (ll m : nat)
    (vs : list string) (cols : list nat) : ∀ (w : World) (lc : list string),
  r < 0 ∨ Z.of_nat (MyTableModel.rowCount w) ≤ r →
  last (data_array w) = Some ll → store w !! ll = Some lc →
  m = pred (length lc) → lc ≠ [] →
  store w !! values = Some vs → values ≠ ll →
  Forall (λ col, (col < length vs)%nat) cols →
  EditRowCommand.write_cols values r cols w
  = (Ret tt,
     mkWorld (<[ll := foldl (overwrite_at m vs) lc cols]> (store w)) (data_array w)
             (emitted w ++ replicate (length cols) invalid_changed) (selection w)).
Proof.
  induction cols as [|col cols IH]; intros w lc Hr Hlast Hll Hm Hne Hvs Hvl Hcols.
  - simpl. rewrite insert_id, app_nil_r by done. by destruct w.
  - apply Forall_cons in Hcols as [Hcol Hcols].
    destruct (lookup_lt_is_Some_2 vs col Hcol) as [value Hvalue].
    cbn [EditRowCommand.write_cols]. rewrite Hvs, Hvalue.
    rewrite index_missing_row by done.
    rewrite (setData_invalid_index w ll lc value) by done.
    rewrite (IH _ (<[m := value]> lc)); simpl.
    + f_equal. rewrite insert_insert_eq, <- app_assoc.
      replace (overwrite_at m vs lc col) with (<[m := value]> lc)
        by (unfold overwrite_at; by rewrite Hvalue).
      done.
    + done.
    + done.
    + subst m. apply lookup_insert_eq.
    + by rewrite length_insert.
    + subst m. destruct lc; [done|]. by destruct (pred (length (s :: lc))).
    + by rewrite lookup_insert_ne.
    + done.
    + done.
Qed.

Lemma overwrite_at_covered (m : nat) (vs : list string) (v : string)
    (cols : list nat) : ∀ cells,
  <[m := v]> (foldl (overwrite_at m vs) cells cols) = <[m := v]> cells.
Proof.
  induction cols as [|col cols IH]; intros cells; [done|]. simpl.
  rewrite IH. unfold overwrite_at. destruct (vs !! col); [|done].
  apply list_insert_insert_eq.
Qed.

(** X5: an edit command whose row the table does not have (negative, or at
    or beyond the row count) but which is in the range of a C int, as are
    the positions of its values, gets the invalid index from the model for
    every column and so writes every value into the last cell of the last
    row: that cell ends up holding the last value, nothing else changes, and
    every signal carries the invalid index.  (The value list is a list object
    other than the last row.) *)
Theorem edit_apply_missing_row (undoing : bool) (c : EditRowCommand.t) (w : World)
    (ll : nat) (lc vs : list string) (v : string) :
  c_int (EditRowCommand.row c) → Z.of_nat (length vs) ≤ 2 ^ 31 →
  EditRowCommand.row c < 0 ∨
    Z.of_nat (MyTableModel.rowCount w) ≤ EditRowCommand.row c →
  last (data_array w) = Some ll → store w !! ll = Some lc → lc ≠ [] →
  store w !! edit_values undoing c = Some vs → edit_values undoing c ≠ ll →
  last vs = Some v →
  edit_apply undoing c w
  = (Ret tt,
     mkWorld (<[ll := <[pred (length lc) := v]> lc]> (store w)) (data_array w)
             (emitted w ++ replicate (length vs) invalid_changed) (selection w)).
Proof.
  intros _ _ Hr Hlast Hll Hne Hvs Hvl Hv.
  assert (edit_apply undoing c w
          = EditRowCommand.write_values (edit_values undoing c)
              (EditRowCommand.row c) w) as -> by (by destruct undoing).
  unfold EditRowCommand.write_values. rewrite Hvs.
  rewrite (write_cols_missing_row _ _ ll (pred (length lc)) vs _ w lc); try done.
  - rewrite length_seq. f_equal. f_equal. f_equal.
    rewrite last_lookup in Hv.
    destruct (length vs) as [|n] eqn:Hn; [by destruct vs|].
    simpl in Hv. rewrite seq_S, foldl_app. simpl.
    unfold overwrite_at at 1. rewrite Hv. apply overwrite_at_covered.
  - apply Forall_forall. intros col Hcol%elem_of_seq. lia.
Qed.

Lemma edit_apply_missing_row_witness :
  ∃ w',
    EditRowCommand.redo edit_missing_row edit_world = (Ret tt, w') ∧
    table_contents w'
    = Some [["Item 1"; "Description 1"]; ["Item 2"; "Updated"]]%string ∧
    emitted w' = [invalid_changed; invalid_changed].
Proof.
  eexists. split.
  - apply (edit_apply_missing_row false edit_missing_row edit_world 1%nat
             ["Item 2"; "Description 2"]%string ["Item 1"; "Updated"]%string
             "Updated"%string).
    + split; [vm_compute; discriminate | reflexivity].
    + vm_compute. discriminate.
    + right. vm_compute. discriminate.
    + reflexivity.
    + reflexivity.
    + discriminate.
    + reflexivity.
    + simpl. lia.
    + reflexivity.
  - split; reflexivity.
Defined.

(** ** Cells: what a write leaves alone, and what reading sees *)

Lemma py_index_nonneg (n k : nat) (i : Z) :
  0 ≤ i → py_index n i = Some k → k = Z.to_nat i ∧ (k < n)%nat.
Proof.
  intros Hi. unfold py_index. destruct (decide (0 ≤ i < Z.of_nat n)).
  - intros [= <-]. lia.
  - by rewrite decide_False by lia.
Qed.

(** X8: when no list object is a row of the table twice, [setData] at a
    non-negative index changes no other cell: [data] at every other
    non-negative index answers what it answered before, for every role, also
    when the write raised or was refused. *)
Theorem setData_other_cells (w : World) (i j : QModelIndex) (value : string)
    (role role' : ItemDataRole) :
  NoDup (data_array w) →
  0 ≤ row i → 0 ≤ column i → 0 ≤ row j → 0 ≤ column j → i ≠ j →
  MyTableModel.data j role' (MyTableModel.setData i value role w).2
  = MyTableModel.data j role' w.
Proof.
  intros Hnodup Hri Hci Hrj Hcj Hij. unfold MyTableModel.setData.
  destruct (decide (role = EditRole)); [|done].
  destruct (py_index (length (data_array w)) (row i)) as [ri|] eqn:Hri'; [|done].
  destruct (data_array w !! ri) as [r|] eqn:Hr; [|done].
  destruct (store w !! r) as [cells|] eqn:Hcells; [|done].
  destruct (py_index (length cells) (column i)) as [ci|] eqn:Hci'; [|done].
  apply py_index_nonneg in Hri' as [-> _]; [|done].
  apply py_index_nonneg in Hci' as [-> _]; [|done].
  unfold MyTableModel.data. simpl.
  destruct (decide (role' = DisplayRole)); [|done].
  destruct (py_index (length (data_array w)) (row j)) as [rj|] eqn:Hrj'; [|done].
  apply py_index_nonneg in Hrj' as [-> _]; [|done].
  destruct (data_array w !! Z.to_nat (row j)) as [r'|] eqn:Hr'; [|done].
  destruct (decide (r = r')) as [<-|Hne]; [|by rewrite lookup_insert_ne].
  rewrite lookup_insert_eq, Hcells, length_insert.
  destruct (py_index (length cells) (column j)) as [cj|] eqn:Hcj'; [|done].
  apply py_index_nonneg in Hcj' as [-> _]; [|done].
  rewrite list_lookup_insert_ne; [done|].
  intros Hcol.
  pose proof (NoDup_lookup _ _ _ _ Hnodup Hr Hr') as Hrow.
  apply Hij. destruct i, j; simpl in *. f_equal; lia.
Qed.

Lemma setData_other_cells_witness :
  MyTableModel.data (mkIndex 1 1) DisplayRole
    (MyTableModel.setData (mkIndex 0 1) "Updated" EditRole default_world).2
  = Ret (PyStr "Description 2").
Proof.
  rewrite (setData_other_cells default_world (mkIndex 0 1) (mkIndex 1 1)
             "Updated" EditRole DisplayRole).
  - reflexivity.
  - repeat constructor; [by intros [?|?%elem_of_nil]%elem_of_cons | by intros ?%elem_of_nil].
  - simpl; lia.
  - simpl; lia.
  - simpl; lia.
  - simpl; lia.
  - discriminate.
Defined.

(** X9: rows are held by reference: when one list object is the row at
    positions [a] and [b] of the table, a write into row [a] is read back
    from row [b] as well. *)
Theorem setData_shared_rows (w : World) (a b c : nat) (rl : nat)
    (cells : list string) (value : string) :
  data_array w !! a = Some rl → data_array w !! b = Some rl →
  store w !! rl = Some cells → (c < length cells)%nat →
  ∃ w',
    MyTableModel.setData (mkIndex (Z.of_nat a) (Z.of_nat c)) value EditRole w
    = (Ret (PyBool true), w') ∧
    MyTableModel.data (mkIndex (Z.of_nat b) (Z.of_nat c)) DisplayRole w'
    = Ret (PyStr value).
Proof.
  intros Ha Hb Hcells Hc.
  pose proof (lookup_lt_Some _ _ _ Ha) as Hla.
  pose proof (lookup_lt_Some _ _ _ Hb) as Hlb.
  unfold MyTableModel.setData, MyTableModel.data.
  rewrite !decide_True by done. simpl.
  rewrite !py_index_nat by done. rewrite Ha, Hcells, py_index_nat by done.
  eexists. split; [done|]. simpl.
  rewrite py_index_nat by done.
  rewrite Hb, lookup_insert_eq, length_insert, py_index_nat by done.
  by rewrite list_lookup_insert_eq by done.
Qed.

Lemma setData_shared_rows_witness :
  ∃ w',
    MyTableModel.setData (mkIndex 0 1) "x" EditRole shared_rows_world
    = (Ret (PyBool true), w') ∧
    MyTableModel.data (mkIndex 1 1) DisplayRole w' = Ret (PyStr "x").
Proof.
  apply (setData_shared_rows shared_rows_world 0 1 1 0 ["a"; "b"]%string "x"%string);
    try reflexivity.
  simpl. lia.
Defined.

Lemma data_of_table_contents (w : World) (t : list (list string))
    (i : QModelIndex) :
  table_contents w = Some t →
  MyTableModel.data i DisplayRole w
  = match py_index (length t) (row i) with
    | None => Raise IndexError
    | Some ri =>
        match t !! ri with
        | None => Raise IndexError
        | Some cells =>
            match py_index (length cells) (column i) with
            | None => Raise IndexError
            | Some ci =>
                match cells !! ci with
                | Some v => Ret (PyStr v)
                | None => Raise IndexError
                end
            end
        end
    end.
Proof.
  intros Ht. apply mapM_Some_1 in Ht.
  unfold MyTableModel.data. rewrite decide_True by done.
  rewrite (Forall2_length _ _ _ Ht).
  destruct (py_index (length t) (row i)) as [ri|]; [|done].
  destruct (data_array w !! ri) as [r|] eqn:Hr.
  - destruct (Forall2_lookup_l _ _ _ _ _ Ht Hr) as (cells & -> & ->). done.
  - apply lookup_ge_None in Hr. rewrite (Forall2_length _ _ _ Ht) in Hr.
    by rewrite (lookup_ge_None_2 t ri).
Qed.

(** X10: what [data] answers depends on the cells of the table only, not on
    which list objects hold them: two sessions whose tables have the same
    rows of cells give the same answer at every index, in range or not, and
    for every role. *)
Theorem data_depends_on_cells (w w' : World) (t : list (list string))
    (i : QModelIndex) (role : ItemDataRole) :
  table_contents w = Some t → table_contents w' = Some t →
  MyTableModel.data i role w = MyTableModel.data i role w'.
Proof.
  intros Ht Ht'. destruct (decide (role = DisplayRole)) as [->|Hrole].
  - by rewrite (data_of_table_contents w t), (data_of_table_contents w' t).
  - unfold MyTableModel.data. by rewrite !decide_False.
Qed.

Lemma data_depends_on_cells_witness :
  MyTableModel.data (mkIndex 1 (-1)) DisplayRole default_world
  = MyTableModel.data (mkIndex 1 (-1)) DisplayRole edit_world.
Proof.
  apply (data_depends_on_cells default_world edit_world
           MyTableModel.default_rows (mkIndex 1 (-1)) DisplayRole);
    reflexivity.
Defined.

(** ** Flags *)

(** X11: [flags] reports [ItemIsEditable] for every index, whatever the
    base class answers, and adds nothing else: every other bit is the base
    class's, and the flags of an index the base class already calls editable
    are the base class's flags. *)
Theorem flags_adds_editable (super_flags : Z) :
  Z.land (MyTableModel_flags super_flags) ItemFlag.ItemIsEditable
    = ItemFlag.ItemIsEditable ∧
  (∀ k, k ≠ 1 →
        Z.testbit (MyTableModel_flags super_flags) k = Z.testbit super_flags k) ∧
  (Z.testbit super_flags 1 = true → MyTableModel_flags super_flags = super_flags) ∧
  MyTableModel_flags (MyTableModel_flags super_flags) = MyTableModel_flags super_flags.
Proof.
  unfold MyTableModel_flags, ItemFlag.ItemIsEditable.
  assert (∀ k, Z.testbit 2 k = bool_decide (k = 1)) as Hbit.
  { intros k. destruct (decide (k = 1)) as [->|Hk]; [done|].
    rewrite bool_decide_eq_false_2 by done.
    destruct (decide (0 ≤ k)) as [Hpos|Hneg].
    - change 2 with (2 ^ 1). rewrite Z.pow2_bits_false; [done | lia].
    - apply Z.testbit_neg_r. lia. }
  split.
  { apply Z.bits_inj'. intros k _.
    rewrite Z.land_spec, Z.lor_spec, Hbit.
    by destruct (bool_decide (k = 1)), (Z.testbit super_flags k). }
  split.
  { intros k Hk. rewrite Z.lor_spec, Hbit. by rewrite bool_decide_eq_false_2. }
  split.
  { intros Hset. apply Z.bits_inj'. intros k _. rewrite Z.lor_spec, Hbit.
    destruct (decide (k = 1)) as [->|Hk]; [by rewrite Hset, orb_true_r|].
    by rewrite bool_decide_eq_false_2. }
  apply Z.bits_inj'. intros k _. rewrite !Z.lor_spec.
  by destruct (Z.testbit 2 k), (Z.testbit super_flags k).
Qed.

(** ** Command texts *)

(** X16: the texts of the commands tell them apart: two edit commands have
    the same text exactly when they edit the same row, and no edit command
    has the text of a selection change. *)
Theorem command_text_distinguishes (e1 e2 : EditRowCommand.t)
    (s : SelectionUndoCommand.t) :
  (command_text (EditRow e1) = command_text (EditRow e2) ↔
     EditRowCommand.row e1 = EditRowCommand.row e2) ∧
  command_text (EditRow e1) ≠ command_text (SelectionChange s).
Proof.
  split.
  - split.
    + simpl. intros [= Heq]. by apply (inj pretty).
    + simpl. by intros ->.
  - simpl. discriminate.
Qed.

(** ** The logger *)

Lemma create_logger_insert (name : string) (log_level : Z)
    (loggers : gmap string Logging.Logger) :
  Logging.create_logger name log_level loggers
  = <[Logging.key name := Logging.mkLogger log_level [Logging.console_handler]]>
      loggers.
Proof.
  unfold Logging.create_logger, Logging.getLogger, Logging.on_logger.
  destruct (loggers !! Logging.key name) as [l|] eqn:Hl.
  - rewrite Hl, !lookup_insert_eq, !insert_insert_eq. done.
  - rewrite !lookup_insert_eq, !insert_insert_eq. done.
Qed.

(** X15: whatever the logging module held before, [create_logger] leaves
    the logger the name stands for with the given level and exactly one
    handler, the console handler, and touches no logger that another name
    stands for; calling it again for the same name does not pile up handlers,
    the last call alone decides; the empty name and ["root"] configure the
    same logger, the root logger. *)
Theorem create_logger_single_handler (name : string) (log_level : Z)
    (loggers : gmap string Logging.Logger) :
  Logging.create_logger name log_level loggers !! Logging.key name
    = Some (Logging.mkLogger log_level [Logging.console_handler]) ∧
  (∀ other, Logging.key other ≠ Logging.key name →
     Logging.create_logger name log_level loggers !! Logging.key other
     = loggers !! Logging.key other) ∧
  (∀ earlier_level,
     Logging.create_logger name log_level
       (Logging.create_logger name earlier_level loggers)
     = Logging.create_logger name log_level loggers) ∧
  Logging.create_logger "" log_level loggers
    = Logging.create_logger "root" log_level loggers.
Proof.
  split; [by rewrite create_logger_insert, lookup_insert_eq|].
  split.
  { intros other Hne. by rewrite create_logger_insert, lookup_insert_ne. }
  split.
  { intros earlier. by rewrite !create_logger_insert, insert_insert_eq. }
  by rewrite !create_logger_insert.
Qed.

(** ** The selection slot, again *)

Lemma captured_rows_in_model (w : World) (r : Z) :
  selection_in_model w →
  r ∈ SelectionState.capture_rows (selection w) →
  MyTableModel.hasIndex r 0 w = true.
Proof.
  intros Hsel (i & Hi & _ & <-)%capture_rows_elem.
  pose proof (proj1 (Forall_forall _ _) Hsel i Hi) as Hhas. simpl in Hhas.
  apply hasIndex_true in Hhas as (n & Hn & Hrow & Hcol).
  apply hasIndex_true. exists n. split; [done|]. split; [done|]. lia.
Qed.

Lemma captured_rows_nonempty (w : World) :
  selection_in_model w → selection w ≠ [] →
  SelectionState.capture_rows (selection w) ≠ ∅.
Proof.
  intros Hsel Hne Hempty. unfold selection_in_model in Hsel.
  destruct (selection w) as [|i l] eqn:Hw; [done|].
  apply Forall_cons in Hsel as [Hi _].
  apply hasIndex_true in Hi as (n & _ & Hrow & Hcol).
  assert (row i ∈ SelectionState.capture_rows (i :: l)) as Hin.
  { apply capture_rows_elem. exists i. split; [left|].
    split; [|done]. unfold isValid.
    by rewrite !bool_decide_eq_true_2 by lia. }
  rewrite Hempty in Hin. by apply not_elem_of_empty in Hin.
Qed.

Lemma sorted_first (rows : gset Z) :
  rows ≠ ∅ → ∃ r rest, SelectionState.sorted rows = r :: rest ∧ r ∈ rows.
Proof.
  intros Hne. destruct (SelectionState.sorted rows) as [|r rest] eqn:Hsorted.
  - exfalso. apply Hne. apply set_eq. intros r. rewrite <- sorted_elem, Hsorted.
    split; [by intros ?%elem_of_nil | by intros ?%not_elem_of_empty].
  - exists r, rest. split; [done|]. apply sorted_elem. rewrite Hsorted. left.
Qed.

Lemma clearSelection_nothing_selected (w : World) :
  selection w = [] → QItemSelectionModel.clearSelection w = w.
Proof. intros Hsel. destruct w. simpl in Hsel. by subst. Qed.

(** With nothing selected the slot returns, at any nesting bound, and leaves
    nothing selected and the empty state as the previous one. *)
Lemma handle_nothing_selected (fuel : nat) (m : MainWindow.t) (w : World) :
  selection w = [] →
  ∃ m', MainWindow.handle_selection_change (S fuel) m w = Some (m', w) ∧
        MainWindow.previous_selection m' = SelectionState.init true w ∧
        SelectionState.selected_rows (MainWindow.previous_selection m') = ∅.
Proof.
  intros Hsel.
  assert (SelectionState.selected_rows (SelectionState.init true w) = ∅) as Hrows.
  { simpl. unfold QItemSelectionModel.selectedIndexes. by rewrite Hsel. }
  cbn [MainWindow.handle_selection_change].
  destruct (decide (SelectionState.selected_rows (SelectionState.init true w)
                    ≠ SelectionState.selected_rows (MainWindow.previous_selection m))).
  - rewrite push_connected_nothing_selected by done.
    set (c := SelectionChange _).
    assert ((History.push c (MainWindow.undo_stack m) w).2 = w) as ->.
    { unfold History.push, c. simpl.
      unfold SelectionState.apply_selection. simpl.
      unfold QItemSelectionModel.selectedIndexes.
      rewrite Hsel. change (SelectionState.capture_rows []) with (∅ : gset Z).
      rewrite sorted_empty. by apply clearSelection_nothing_selected. }
    eexists. split; [reflexivity|]. by split.
  - eexists. split; [reflexivity|]. by split.
Qed.

Lemma foldl_connected_none
    (slot : MainWindow.t → World → option (MainWindow.t * World)) (rs : list Z) :
  foldl (λ st r, st ≫= λ '(m, w),
           MainWindow.select_connected slot (MyTableModel.index r 0 w) m w)
        None rs = None.
Proof. by induction rs. Qed.

Lemma list_difference_nothing (l : list QModelIndex) : list_difference l [] = l.
Proof. induction l as [|i l IH]; [done|]. simpl. by rewrite IH. Qed.

(** Selecting a row of the model when nothing is selected. *)
Lemma select_first_row (w : World) (r : Z) :
  selection w = [] → MyTableModel.hasIndex r 0 w = true →
  let w' := QItemSelectionModel.select_rows (MyTableModel.index r 0 w) w in
  selection w' ≠ [] ∧ selection_in_model w'.
Proof.
  intros Hsel Hhas w'.
  assert (selection w' = QItemSelectionModel.row_indexes r w) as Hw'.
  { unfold w', MyTableModel.index, QItemSelectionModel.select_rows.
    rewrite Hhas. simpl. rewrite Hhas. simpl.
    by rewrite Hsel, list_difference_nothing. }
  pose proof Hhas as (n & Hn & Hrow & Hcol)%hasIndex_true.
  destruct (select_rows_frame w (MyTableModel.index r 0 w)) as (Hs & Hd & _).
  fold w' in Hs, Hd.
  split.
  - rewrite Hw'. intros Hnil.
    assert (mkIndex r 0 ∈ QItemSelectionModel.row_indexes r w) as Hin.
    { apply row_indexes_elem. exists n, 0%nat. split; [done|]. split; [lia|done]. }
    rewrite Hnil in Hin. by apply elem_of_nil in Hin.
  - unfold selection_in_model. rewrite Hw'. apply Forall_forall.
    intros i (n' & c & Hn' & Hc & ->)%row_indexes_elem. simpl.
    rewrite (hasIndex_ext w) by done.
    apply hasIndex_true. exists n'. split; [done|]. split; [done|]. lia.
Qed.

Lemma changed_event_nests (fuel : nat) : ∀ (m : MainWindow.t) (w : World),
  selection_in_model w → selection w ≠ [] →
  SelectionState.capture_rows (selection w)
    ≠ SelectionState.selected_rows (MainWindow.previous_selection m) →
  MainWindow.handle_selection_change fuel m w = None.
Proof.
  induction fuel as [|fuel IH]; intros m w Hmodel Hne Hchanged; [done|].
  cbn [MainWindow.handle_selection_change].
  rewrite decide_True by done.
  set (current := SelectionState.init true w).
  set (command := SelectionUndoCommand.mk (MainWindow.previous_selection m) current).
  assert (MainWindow.push_connected (MainWindow.handle_selection_change fuel)
            command m w = None) as ->; [|done].
  unfold MainWindow.push_connected, MainWindow.apply_selection_connected.
  set (m1 := MainWindow.mk _ (MainWindow.previous_selection m)).
  destruct (sorted_first (SelectionState.capture_rows (selection w)))
    as (r & rest & Hsorted & Hr); [by apply captured_rows_nonempty|].
  simpl. unfold QItemSelectionModel.selectedIndexes. rewrite Hsorted.
  assert (MainWindow.clearSelection_connected
            (MainWindow.handle_selection_change fuel) m1 w
          = MainWindow.handle_selection_change fuel m1
              (QItemSelectionModel.clearSelection w)) as ->.
  { unfold MainWindow.clearSelection_connected. by destruct (selection w). }
  destruct fuel as [|fuel'].
  { cbn [MainWindow.handle_selection_change foldl].
    by rewrite foldl_connected_none. }
  destruct (handle_nothing_selected fuel' m1 (QItemSelectionModel.clearSelection w))
    as (m2 & -> & _ & Hprev); [done|].
  cbn [foldl mbind option_bind].
  set (wc := QItemSelectionModel.clearSelection w).
  assert (MyTableModel.hasIndex r 0 wc = true) as Hhas.
  { rewrite (hasIndex_ext w) by done. by apply captured_rows_in_model. }
  destruct (select_first_row wc r) as [Hsel' Hmodel']; [done | done |].
  unfold MainWindow.select_connected at 2.
  rewrite decide_False by done.
  rewrite IH; [by rewrite foldl_connected_none | done | done |].
  rewrite Hprev. by apply captured_rows_nonempty.
Qed.

(** X19: a selection-changed event that finds something selected, all of it
    in the model, and a row set other than the previous one does not come to
    an end at any nesting bound: the push applies the captured state, the
    [clearSelection()] and [select()] of [apply_selection] run the connected
    slot again, and a slot that finds the first row selected after an empty
    previous state pushes in its turn, one level deeper each time. *)
Theorem selection_event_nests_forever (m : MainWindow.t) (w : World) :
  selection_in_model w → selection w ≠ [] →
  SelectionState.capture_rows (selection w)
    ≠ SelectionState.selected_rows (MainWindow.previous_selection m) →
  ∀ fuel, MainWindow.handle_selection_change fuel m w = None.
Proof. intros Hmodel Hne Hchanged fuel. by apply changed_event_nests. Qed.

Lemma row_1_selected_in_model : selection_in_model row_1_selected.
Proof. repeat constructor. Qed.

Lemma window_row_0_changed :
  SelectionState.capture_rows (selection row_1_selected)
    ≠ SelectionState.selected_rows (MainWindow.previous_selection window_row_0).
Proof.
  intros Heq. apply (f_equal elements) in Heq. vm_compute in Heq. discriminate Heq.
Qed.

Lemma selection_event_nests_forever_witness :
  MainWindow.handle_selection_change 1000 window_row_0 row_1_selected = None.
Proof.
  apply (selection_event_nests_forever window_row_0 row_1_selected).
  - exact row_1_selected_in_model.
  - discriminate.
  - exact window_row_0_changed.
Defined.

(** X12: when every selected index is an index of the model and a call of
    the slot returns, a second selection-changed event right after it pushes
    nothing and leaves the window and the session as the first left them. *)
Theorem selection_event_repeated (fuel fuel' : nat) (m m1 : MainWindow.t)
    (w w1 : World) :
  selection_in_model w →
  MainWindow.handle_selection_change fuel m w = Some (m1, w1) →
  MainWindow.handle_selection_change (S fuel') m1 w1 = Some (m1, w1).
Proof.
  intros Hmodel Hfirst.
  assert (MainWindow.previous_selection m1 = SelectionState.init true w ∧
          selection w1 = selection w) as [Hprev Hsel].
  { destruct (decide (SelectionState.capture_rows (selection w)
                      = SelectionState.selected_rows (MainWindow.previous_selection m)))
      as [Heq|Hchanged].
    - destruct fuel as [|f]; [done|].
      cbn [MainWindow.handle_selection_change] in Hfirst.
      rewrite decide_False in Hfirst by (by intros ?).
      by injection Hfirst as <- <-.
    - destruct (selection w) as [|i l] eqn:Hw.
      + destruct fuel as [|f]; [done|].
        destruct (handle_nothing_selected f m w Hw) as (m' & Hrun & Hp & _).
        rewrite Hrun in Hfirst. injection Hfirst as <- <-. by rewrite Hw.
      + rewrite changed_event_nests in Hfirst; [done | done | by rewrite Hw |].
        by rewrite Hw.  }
  cbn [MainWindow.handle_selection_change].
  assert (SelectionState.init true w1 = SelectionState.init true w) as Hsame.
  { unfold SelectionState.init, SelectionState.capture_selection,
      QItemSelectionModel.selectedIndexes. by rewrite Hsel. }
  rewrite Hsame, Hprev. rewrite decide_False by (by intros ?).
  f_equal. f_equal. destruct m1. simpl in Hprev. by subst.
Qed.

Lemma selection_event_repeated_witness :
  ∃ m1 w1,
    MainWindow.handle_selection_change 1 window_row_0 default_world = Some (m1, w1) ∧
    length (History.commands (MainWindow.undo_stack m1)) = 1%nat ∧
    MainWindow.handle_selection_change 1 m1 w1 = Some (m1, w1).
Proof.
  eexists _, _. split; [reflexivity|]. split; [reflexivity|].
  apply (selection_event_repeated 1 0 window_row_0 _ default_world _).
  - constructor.
  - reflexivity.
Defined.

(** ** Redo after undo *)





(** ** A row shorter than the values *)

Section short_row.

Context (w : World) (values : nat) (r : Z) (rl : nat) (cur vs : list string)
        (n : nat).

Local Abbreviation short := (short_row values r w rl cur vs n).
Local Abbreviation after := (after_cols w r rl cur vs).

Lemma short_row_columnCount k :
  short → MyTableModel.columnCount (after k) = Ret n.
Proof.
  intros (_ & _ & Hcur & _ & _ & Hcc & Hlt & Hle).
  unfold MyTableModel.columnCount in Hcc |- *. simpl.
  destruct (data_array w) as [|f rest]; [done|].
  destruct (decide (rl = f)) as [<-|Hne]; [|by rewrite lookup_insert_ne].
  rewrite Hcur in Hcc. injection Hcc as Hn. lia.
Qed.

Lemma short_row_index k :
  short → (k < length vs)%nat →
  MyTableModel.index r (Z.of_nat k) (after k) = mkIndex r (Z.of_nat k).
Proof.
  intros Hshort Hk. pose proof Hshort as (Hr & _ & _ & _ & _ & _ & _ & Hle).
  unfold MyTableModel.index, MyTableModel.hasIndex.
  rewrite short_row_columnCount by done. unfold MyTableModel.rowCount. simpl.
  rewrite !bool_decide_eq_true_2 by lia. done.
Qed.

Lemma short_row_step k rest :
  short → (k < length cur)%nat →
  EditRowCommand.write_cols values r (k :: rest) (after k)
  = EditRowCommand.write_cols values r rest (after (S k)).
Proof.
  intros Hshort Hk.
  pose proof Hshort as (Hr & Hrl & Hcur & Hvs & Hne & _ & Hlt & _).
  destruct (lookup_lt_is_Some_2 vs k ltac:(lia)) as [value Hvalue].
  destruct (lookup_lt_is_Some_2 cur k Hk) as [old Hold].
  cbn [EditRowCommand.write_cols]. simpl.
  rewrite lookup_insert_ne, Hvs, Hvalue by done.
  rewrite short_row_index by (done || lia).
  unfold MyTableModel.setData. rewrite decide_True by done. simpl.
  rewrite py_index_in_range, Hrl, lookup_insert_eq by done.
  rewrite py_index_nat
    by (rewrite length_app, length_take, length_drop; lia).
  f_equal. unfold after_cols. f_equal.
  - rewrite insert_insert_eq. f_equal.
    rewrite insert_app_r_alt by (rewrite length_take; lia).
    rewrite length_take, Nat.min_l, Nat.sub_diag by lia.
    rewrite (take_S_r _ _ _ Hvalue), <- app_assoc. f_equal.
    by rewrite (drop_S _ _ _ Hold).
  - by rewrite seq_S, fmap_app, app_assoc.
Qed.

Lemma short_row_stop rest :
  short →
  EditRowCommand.write_cols values r (length cur :: rest) (after (length cur))
  = (Raise IndexError, after (length cur)).
Proof.
  intros Hshort.
  pose proof Hshort as (Hr & Hrl & Hcur & Hvs & Hne & _ & Hlt & _).
  destruct (lookup_lt_is_Some_2 vs (length cur) Hlt) as [value Hvalue].
  cbn [EditRowCommand.write_cols]. simpl.
  rewrite lookup_insert_ne, Hvs, Hvalue by done.
  rewrite short_row_index by done.
  unfold MyTableModel.setData. rewrite decide_True by done. simpl.
  rewrite py_index_in_range, Hrl, lookup_insert_eq by done.
  rewrite py_index_too_large; [done|].
  rewrite length_app, length_take, length_drop. lia.
Qed.

Lemma short_row_loop m : ∀ k,
  short → (k ≤ length cur)%nat → (k + m = length vs)%nat →
  EditRowCommand.write_cols values r (seq k m) (after k)
  = (Raise IndexError, after (length cur)).
Proof.
  induction m as [|m IH]; intros k Hshort Hk Hm.
  - pose proof Hshort as (_ & _ & _ & _ & _ & _ & Hlt & _). lia.
  - cbn [seq]. destruct (decide (k = length cur)) as [->|Hne].
    + by apply short_row_stop.
    + rewrite short_row_step by (done || lia). apply IH; (done || lia).
Qed.

End short_row.

(** X18: an application of an edit command is not all-or-nothing: when the
    target row is shorter than the value list (on a table whose first row is
    at least as long as that list), the cells the row has are overwritten,
    each with its signal, and the write past the end of the row raises
    [IndexError], leaving the row half replaced. *)
Theorem edit_apply_short_row (undoing : bool) (c : EditRowCommand.t) (w : World)
    (rl : nat) (cur vs : list string) (n : nat) :
  short_row (edit_values undoing c) (EditRowCommand.row c) w rl cur vs n →
  edit_apply undoing c w
  = (Raise IndexError,
     mkWorld (<[rl := take (length cur) vs]> (store w)) (data_array w)
             (emitted w ++ (cell_changed (EditRowCommand.row c) <$> seq 0 (length cur)))
             (selection w)).
Proof.
  intros Hshort. pose proof Hshort as (_ & _ & Hcur & Hvs & _).
  assert (edit_apply undoing c w
          = EditRowCommand.write_values (edit_values undoing c)
              (EditRowCommand.row c) w) as -> by (by destruct undoing).
  unfold EditRowCommand.write_values. rewrite Hvs.
  assert (after_cols w (EditRowCommand.row c) rl cur vs 0 = w) as H0.
  { unfold after_cols. simpl. rewrite drop_0, app_nil_r, insert_id by done.
    by destruct w. }
  rewrite <- H0 at 1.
  rewrite (short_row_loop w _ _ rl cur vs n (length vs) 0%nat Hshort) by lia.
  unfold after_cols. by rewrite drop_all, app_nil_r.
Qed.

Lemma edit_apply_short_row_witness :
  ∃ w',
    EditRowCommand.redo edit_short_row ragged_world = (Raise IndexError, w') ∧
    table_contents w' = Some [["a"; "b"]; ["x"]]%string ∧
    emitted w' = [cell_changed 1 0].
Proof.
  eexists. split.
  - apply (edit_apply_short_row false edit_short_row ragged_world 1%nat
             ["c"]%string ["x"; "y"]%string 2%nat).
    repeat split; try reflexivity; simpl; lia.
  - split; reflexivity.
Defined.
